(** * Adaptive SHiP-D last-level-cache replacement policy

    A shallow embedding of [066_adaptive_ship_d.cc] and the properties its
    specification states about it.

    - Unsigned machine integers are [Z] with the wrap-around written out
      ([wrap8], [wrap64]); the signed difference of line 128 is [sint64].
    - The statically sized arrays are lists read with [!!!] and written with
      [<[_:=_]>]; the two-dimensional ones are lists of rows.  An index
      outside an array is undefined behaviour in the source, so every
      statement below constrains its indices to the array bounds.
    - [double] values are IEEE-754 binary64 numbers, modelled by the
      axiom-free [spec_float] of the standard library with [prec = 53],
      [emax = 1024] and round-to-nearest-even.
    - The process-wide globals become one record [State] threaded through
      the entry points.
    - The [while (true)] loop of [FindVictimWay] takes fuel: one unit per
      iteration of the loop body. *)

From Stdlib Require Import ZArith Lia Bool.
From Stdlib Require Import SpecFloat PrimFloat FloatOps.
From stdpp Require Import base list.

Local Open Scope Z_scope.

(** ** Configuration constants (lines 7-32) *)

Definition NUM_CORE : nat := 1.
Definition LLC_SETS : nat := (NUM_CORE * 2048)%nat.
Definition LLC_WAYS : nat := 16.
Definition MAX_RRPV : Z := 3.
Definition SIG_TABLE_SIZE : Z := 2048.
Definition SHCT_INIT : Z := 2.
Definition SHCT_MAX : Z := 3.
Definition SHCT_THRESHOLD : Z := 2.
Definition STCT_INIT : Z := 1.
Definition STCT_MAX : Z := 3.
Definition EPOCH_LENGTH : Z := 100000.
Definition INVALID_BLK : Z := 2 ^ 64 - 1.

(** ** Machine arithmetic *)

Definition wrap8 (x : Z) : Z := x mod 2 ^ 8.
Definition wrap32 (x : Z) : Z := x mod 2 ^ 32.
Definition wrap64 (x : Z) : Z := x mod 2 ^ 64.

(** The value of a 64-bit pattern read as [int64_t], and with it the
    two's-complement result of a signed operation. *)
Definition sint64 (x : Z) : Z := (x + 2 ^ 63) mod 2 ^ 64 - 2 ^ 63.

(** ** Binary64 arithmetic *)

Definition prec64 : Z := 53.
Definition emax64 : Z := 1024.

(** [(double)n] for an unsigned 64-bit [n]. *)
Definition double_of_u64 (n : Z) : spec_float :=
  binary_normalize prec64 emax64 n 0 false.

Definition dzero : spec_float := S754_zero false.
Definition ddiv : spec_float -> spec_float -> spec_float := SFdiv prec64 emax64.
Definition dsub : spec_float -> spec_float -> spec_float := SFsub prec64 emax64.
Definition dfabs : spec_float -> spec_float := SFabs.
(** [x < y] and [x >= y] on doubles; both are false when an operand is NaN. *)
Definition dlt (x y : spec_float) : bool := SFltb x y.
Definition dge (x y : spec_float) : bool := SFleb y x.

(** The doubles the literals [0.05], [0.10] and [0.70] denote. *)
Definition PHASE_CHANGE_DELTA : spec_float :=
  S754_finite false 0x1999999999999A (-57).
Definition STREAM_LOW_RATIO : spec_float :=
  S754_finite false 0x1999999999999A (-56).
Definition STREAM_HIGH_RATIO : spec_float :=
  S754_finite false 0x16666666666666 (-53).

(** ** Arrays *)

Definition tget (t : list Z) (i : Z) : Z := t !!! Z.to_nat i.
Definition tset (t : list Z) (i : Z) (v : Z) : list Z := <[Z.to_nat i := v]> t.

Definition get2 {A} `{Inhabited A} (a : list (list A)) (s w : nat) : A :=
  (a !!! s) !!! w.
Definition set2 {A} (a : list (list A)) (s w : nat) (v : A) : list (list A) :=
  <[s := <[w := v]> (a !!! s)]> a.

(** ** Policy state (lines 34-51) *)

Record State : Type := mkState {
  RRPV : list (list Z);
  valid_entries : list (list bool);
  sig_mem : list (list Z);
  has_hit : list (list bool);
  is_streaming : list (list bool);
  SHCT : list Z;
  STCT : list Z;
  last_addr : list Z;
  g_STCT_THRESHOLD : Z;
  stat_hits : Z;
  stat_misses : Z;
  epoch_accesses : Z;
  epoch_hits : Z;
  epoch_misses : Z;
  stream_inserts : Z;
  stream_hits : Z;
  stream_misses : Z;
  prev_miss_rate : spec_float
}.

(** ** Signature hash (lines 54-56) *)

Definition GetSignature (PC : Z) : Z :=
  wrap32 (Z.land (Z.lxor (Z.lxor PC (Z.shiftr PC 12)) (Z.shiftr PC 20))
                 (SIG_TABLE_SIZE - 1)).

(** ** Victim selection (lines 59-69) *)

(** [for (w = lo; w < lo + n; w++) if (p w) return w;] *)
Fixpoint first_way (p : nat -> bool) (lo n : nat) : option nat :=
  match n with
  | O => None
  | S n' => if p lo then Some lo else first_way p (S lo) n'
  end.

(** Lines 65-67: one aging pass over the ways of [set]. *)
Definition age_way (set : nat) (rr : list (list Z)) (w : nat) : list (list Z) :=
  if get2 rr set w <? MAX_RRPV
  then set2 rr set w (wrap8 (get2 rr set w + 1))
  else rr.

Definition age_set (set : nat) (rr : list (list Z)) : list (list Z) :=
  foldl (age_way set) rr (seq 0 LLC_WAYS).

(** Lines 62-68: the [while (true)] loop on the RRPV array. *)
Fixpoint rrip_loop (fuel : nat) (set : nat) (rr : list (list Z))
  : option (nat * list (list Z)) :=
  match fuel with
  | O => None
  | S fuel' =>
      match first_way (fun w => get2 rr set w =? MAX_RRPV) 0 LLC_WAYS with
      | Some w => Some (w, rr)
      | None => rrip_loop fuel' set (age_set set rr)
      end
  end.

Definition with_RRPV (rr : list (list Z)) (st : State) : State :=
  {| RRPV := rr;
     valid_entries := valid_entries st;
     sig_mem := sig_mem st;
     has_hit := has_hit st;
     is_streaming := is_streaming st;
     SHCT := SHCT st;
     STCT := STCT st;
     last_addr := last_addr st;
     g_STCT_THRESHOLD := g_STCT_THRESHOLD st;
     stat_hits := stat_hits st;
     stat_misses := stat_misses st;
     epoch_accesses := epoch_accesses st;
     epoch_hits := epoch_hits st;
     epoch_misses := epoch_misses st;
     stream_inserts := stream_inserts st;
     stream_hits := stream_hits st;
     stream_misses := stream_misses st;
     prev_miss_rate := prev_miss_rate st |}.

Definition FindVictimWay (fuel : nat) (set : nat) (st : State)
  : option (nat * State) :=
  match first_way (fun w => negb (get2 (valid_entries st) set w)) 0 LLC_WAYS with
  | Some w => Some (w, st)
  | None =>
      match rrip_loop fuel set (RRPV st) with
      | Some (w, rr) => Some (w, with_RRPV rr st)
      | None => None
      end
  end.

(** ** Epoch monitor (lines 72-92) *)

Definition cur_miss_rate (st : State) : spec_float :=
  if epoch_accesses st =? 0 then dzero
  else ddiv (double_of_u64 (epoch_misses st)) (double_of_u64 (epoch_accesses st)).

Definition phase_change (st : State) : bool :=
  dge (dfabs (dsub (cur_miss_rate st) (prev_miss_rate st))) PHASE_CHANGE_DELTA.

Definition stream_ratio (st : State) : spec_float :=
  if stream_inserts st =? 0 then dzero
  else ddiv (double_of_u64 (stream_hits st)) (double_of_u64 (stream_inserts st)).

(** Lines 76-79: [for (i = 0; i < SIG_TABLE_SIZE; i++) t[i] = v;] *)
Definition fill_table (v : Z) (t : list Z) : list Z :=
  foldl (fun t i => <[i := v]> t) t (seq 0 (Z.to_nat SIG_TABLE_SIZE)).

(** Lines 83-87. *)
Definition adapt_threshold (ratio : spec_float) (thr : Z) : Z :=
  if dlt ratio STREAM_LOW_RATIO && (thr <? STCT_MAX) then wrap8 (thr + 1)
  else if dlt STREAM_HIGH_RATIO ratio && (1 <? thr) then wrap8 (thr - 1)
  else thr.

Definition MonitorEpoch (st : State) : State :=
  let cur_mr := cur_miss_rate st in
  let reset := phase_change st in
  {| RRPV := RRPV st;
     valid_entries := valid_entries st;
     sig_mem := sig_mem st;
     has_hit := has_hit st;
     is_streaming := is_streaming st;
     SHCT := SHCT st;
     STCT := if reset then fill_table STCT_INIT (STCT st) else STCT st;
     last_addr := if reset then fill_table INVALID_BLK (last_addr st)
                  else last_addr st;
     g_STCT_THRESHOLD := adapt_threshold (stream_ratio st) (g_STCT_THRESHOLD st);
     stat_hits := stat_hits st;
     stat_misses := stat_misses st;
     epoch_accesses := 0;
     epoch_hits := 0;
     epoch_misses := 0;
     stream_inserts := 0;
     stream_hits := 0;
     stream_misses := 0;
     prev_miss_rate := cur_mr |}.

(** ** Initialisation (lines 94-114) *)

Definition InitReplacementState : State :=
  {| RRPV := replicate LLC_SETS (replicate LLC_WAYS MAX_RRPV);
     valid_entries := replicate LLC_SETS (replicate LLC_WAYS false);
     sig_mem := replicate LLC_SETS (replicate LLC_WAYS 0);
     has_hit := replicate LLC_SETS (replicate LLC_WAYS false);
     is_streaming := replicate LLC_SETS (replicate LLC_WAYS false);
     SHCT := replicate (Z.to_nat SIG_TABLE_SIZE) SHCT_INIT;
     STCT := replicate (Z.to_nat SIG_TABLE_SIZE) STCT_INIT;
     last_addr := replicate (Z.to_nat SIG_TABLE_SIZE) INVALID_BLK;
     g_STCT_THRESHOLD := wrap8 (STCT_INIT + 1);
     stat_hits := 0;
     stat_misses := 0;
     epoch_accesses := 0;
     epoch_hits := 0;
     epoch_misses := 0;
     stream_inserts := 0;
     stream_hits := 0;
     stream_misses := 0;
     prev_miss_rate := dzero |}.

(** ** Miss path (lines 116-166) *)

(** Lines 127-134: the new value of [STCT[sig]]. *)
Definition stream_counter (last blk_addr c : Z) : Z :=
  if last =? INVALID_BLK then c
  else
    let delta := sint64 (sint64 blk_addr - sint64 last) in
    if (delta =? 1) || (delta =? -1)
    then (if c <? STCT_MAX then wrap8 (c + 1) else c)
    else (if 0 <? c then wrap8 (c - 1) else c).

(** Lines 127-135. *)
Definition stream_update (sig blk_addr : Z) (st : State) : State :=
  {| RRPV := RRPV st;
     valid_entries := valid_entries st;
     sig_mem := sig_mem st;
     has_hit := has_hit st;
     is_streaming := is_streaming st;
     SHCT := SHCT st;
     STCT := tset (STCT st) sig
               (stream_counter (tget (last_addr st) sig) blk_addr
                               (tget (STCT st) sig));
     last_addr := tset (last_addr st) sig blk_addr;
     g_STCT_THRESHOLD := g_STCT_THRESHOLD st;
     stat_hits := stat_hits st;
     stat_misses := stat_misses st;
     epoch_accesses := epoch_accesses st;
     epoch_hits := epoch_hits st;
     epoch_misses := epoch_misses st;
     stream_inserts := stream_inserts st;
     stream_hits := stream_hits st;
     stream_misses := stream_misses st;
     prev_miss_rate := prev_miss_rate st |}.

(** Lines 140-148. *)
Definition evict_penalty (set way : nat) (st : State) : State :=
  if get2 (valid_entries st) set way then
    let old_sig := get2 (sig_mem st) set way in
    let hh := get2 (has_hit st) set way in
    {| RRPV := RRPV st;
       valid_entries := valid_entries st;
       sig_mem := sig_mem st;
       has_hit := has_hit st;
       is_streaming := is_streaming st;
       SHCT := if negb hh && (0 <? tget (SHCT st) old_sig)
               then tset (SHCT st) old_sig (wrap8 (tget (SHCT st) old_sig - 1))
               else SHCT st;
       STCT := STCT st;
       last_addr := last_addr st;
       g_STCT_THRESHOLD := g_STCT_THRESHOLD st;
       stat_hits := stat_hits st;
       stat_misses := stat_misses st;
       epoch_accesses := epoch_accesses st;
       epoch_hits := epoch_hits st;
       epoch_misses := epoch_misses st;
       stream_inserts := stream_inserts st;
       stream_hits := stream_hits st;
       stream_misses := if get2 (is_streaming st) set way && negb hh
                        then wrap64 (stream_misses st + 1)
                        else stream_misses st;
       prev_miss_rate := prev_miss_rate st |}
  else st.

(** Lines 158-164: the three insertion tiers. *)
Definition insertion_rrpv (shct : Z) (stream : bool) : Z :=
  if SHCT_THRESHOLD <=? shct then 0
  else if stream then 1
  else MAX_RRPV.

(** Lines 151-164. *)
Definition install (set way : nat) (sig : Z) (st : State) : State :=
  let stream := g_STCT_THRESHOLD st <=? tget (STCT st) sig in
  {| RRPV := set2 (RRPV st) set way (insertion_rrpv (tget (SHCT st) sig) stream);
     valid_entries := set2 (valid_entries st) set way true;
     sig_mem := set2 (sig_mem st) set way sig;
     has_hit := set2 (has_hit st) set way false;
     is_streaming := set2 (is_streaming st) set way stream;
     SHCT := SHCT st;
     STCT := STCT st;
     last_addr := last_addr st;
     g_STCT_THRESHOLD := g_STCT_THRESHOLD st;
     stat_hits := stat_hits st;
     stat_misses := stat_misses st;
     epoch_accesses := epoch_accesses st;
     epoch_hits := epoch_hits st;
     epoch_misses := epoch_misses st;
     stream_inserts := if stream then wrap64 (stream_inserts st + 1)
                       else stream_inserts st;
     stream_hits := stream_hits st;
     stream_misses := stream_misses st;
     prev_miss_rate := prev_miss_rate st |}.

(** [BLOCK] is declared in the simulator's header; the policy never looks
    inside [current_set], so the type is left abstract.  [cpu] and [type]
    are unused by the source as well. *)
Definition GetVictimInSet {BLOCK : Type} (fuel : nat)
    (cpu : Z) (set : nat) (current_set : list BLOCK) (PC paddr type : Z)
    (st : State) : option (nat * State) :=
  let sig := GetSignature PC in
  let blk_addr := Z.shiftr paddr 6 in
  let st1 := stream_update sig blk_addr st in
  match FindVictimWay fuel set st1 with
  | None => None
  | Some (way, st2) => Some (way, install set way sig (evict_penalty set way st2))
  end.

(** ** Outcome path (lines 168-196) *)

(** Lines 179-191. *)
Definition record_access (set way : nat) (hit : Z) (st : State) : State :=
  if hit =? 0 then
    {| RRPV := RRPV st;
       valid_entries := valid_entries st;
       sig_mem := sig_mem st;
       has_hit := has_hit st;
       is_streaming := is_streaming st;
       SHCT := SHCT st;
       STCT := STCT st;
       last_addr := last_addr st;
       g_STCT_THRESHOLD := g_STCT_THRESHOLD st;
       stat_hits := stat_hits st;
       stat_misses := wrap64 (stat_misses st + 1);
       epoch_accesses := wrap64 (epoch_accesses st + 1);
       epoch_hits := epoch_hits st;
       epoch_misses := wrap64 (epoch_misses st + 1);
       stream_inserts := stream_inserts st;
       stream_hits := stream_hits st;
       stream_misses := stream_misses st;
       prev_miss_rate := prev_miss_rate st |}
  else
    let sig := get2 (sig_mem st) set way in
    {| RRPV := set2 (RRPV st) set way 0;
       valid_entries := valid_entries st;
       sig_mem := sig_mem st;
       has_hit := set2 (has_hit st) set way true;
       is_streaming := is_streaming st;
       SHCT := if tget (SHCT st) sig <? SHCT_MAX
               then tset (SHCT st) sig (wrap8 (tget (SHCT st) sig + 1))
               else SHCT st;
       STCT := STCT st;
       last_addr := last_addr st;
       g_STCT_THRESHOLD := g_STCT_THRESHOLD st;
       stat_hits := wrap64 (stat_hits st + 1);
       stat_misses := stat_misses st;
       epoch_accesses := wrap64 (epoch_accesses st + 1);
       epoch_hits := wrap64 (epoch_hits st + 1);
       epoch_misses := epoch_misses st;
       stream_inserts := stream_inserts st;
       stream_hits := if get2 (is_streaming st) set way
                      then wrap64 (stream_hits st + 1)
                      else stream_hits st;
       stream_misses := stream_misses st;
       prev_miss_rate := prev_miss_rate st |}.

Definition UpdateReplacementState (cpu : Z) (set way : nat)
    (paddr PC victim_addr type hit : Z) (st : State) : State :=
  let st1 := record_access set way hit st in
  if EPOCH_LENGTH <=? epoch_accesses st1 then MonitorEpoch st1 else st1.

(** ** The harness view of a miss

    On a miss the simulator asks for a victim and then reports the outcome
    of the access with [hit = 0] for the way it was given. *)

Definition miss {BLOCK : Type} (fuel : nat) (set : nat) (current_set : list BLOCK)
    (PC paddr : Z) (st : State) : option (nat * State) :=
  match GetVictimInSet fuel 0 set current_set PC paddr 0 st with
  | None => None
  | Some (way, st1) =>
      Some (way, UpdateReplacementState 0 set way paddr PC 0 0 0 st1)
  end.

(** Runs one miss per [(PC, paddr)] pair on [set]; the trace records, for
    each miss, the way it was given and the [rrpv] its line was installed
    with. *)
Fixpoint run_misses (fuel : nat) (set : nat) (accs : list (Z * Z)) (st : State)
  : option (list (nat * Z) * State) :=
  match accs with
  | [] => Some ([], st)
  | (PC, paddr) :: accs' =>
      match miss (BLOCK := unit) fuel set [] PC paddr st with
      | None => None
      | Some (way, st1) =>
          match run_misses fuel set accs' st1 with
          | None => None
          | Some (tr, st2) => Some ((way, get2 (RRPV st1) set way) :: tr, st2)
          end
      end
  end.

(** ** Well-formed and reachable states *)

Definition shape2 {A} (a : list (list A)) : Prop :=
  length a = LLC_SETS /\ Forall (fun row => length row = LLC_WAYS) a.

(** The value ranges of the data model. *)
Record range_inv (st : State) : Prop := mk_range_inv {
  inv_rrpv : Forall (Forall (fun r => 0 <= r <= MAX_RRPV)) (RRPV st);
  inv_shct : Forall (fun c => 0 <= c <= SHCT_MAX) (SHCT st);
  inv_stct : Forall (fun c => 0 <= c <= STCT_MAX) (STCT st);
  inv_thr : 1 <= g_STCT_THRESHOLD st <= STCT_MAX
}.

(** The array dimensions, stored signatures that index the tables, and
    stored addresses that fit their type. *)
Record shape_inv (st : State) : Prop := mk_shape_inv {
  shp_RRPV : shape2 (RRPV st);
  shp_valid : shape2 (valid_entries st);
  shp_sig_mem : shape2 (sig_mem st);
  shp_has_hit : shape2 (has_hit st);
  shp_is_streaming : shape2 (is_streaming st);
  shp_SHCT : length (SHCT st) = Z.to_nat SIG_TABLE_SIZE;
  shp_STCT : length (STCT st) = Z.to_nat SIG_TABLE_SIZE;
  shp_last_addr : length (last_addr st) = Z.to_nat SIG_TABLE_SIZE;
  shp_sigs : Forall (Forall (fun s => 0 <= s < SIG_TABLE_SIZE)) (sig_mem st);
  shp_addrs : Forall (fun a => 0 <= a < 2 ^ 64) (last_addr st)
}.

Definition wf (st : State) : Prop := range_inv st /\ shape_inv st.

(** One call of an entry point, with arguments of the declared integer
    types and indices inside the arrays. *)
Inductive step : State -> State -> Prop :=
| step_victim (BLOCK : Type) fuel cpu set (current_set : list BLOCK)
    PC paddr type st way st' :
    (set < LLC_SETS)%nat -> 0 <= PC < 2 ^ 64 -> 0 <= paddr < 2 ^ 64 ->
    GetVictimInSet fuel cpu set current_set PC paddr type st = Some (way, st') ->
    step st st'
| step_update cpu set way paddr PC victim_addr type hit st :
    (set < LLC_SETS)%nat -> (way < LLC_WAYS)%nat -> 0 <= hit < 2 ^ 8 ->
    step st (UpdateReplacementState cpu set way paddr PC victim_addr type hit st).

Inductive reachable : State -> Prop :=
| reachable_init : reachable InitReplacementState
| reachable_step st st' : reachable st -> step st st' -> reachable st'.

(** One aging pass on a single row, and the search loop on a single row. *)
Definition age1 (r : Z) : Z := if r <? MAX_RRPV then wrap8 (r + 1) else r.

Fixpoint rrip_row (fuel : nat) (row : list Z) : option (nat * list Z) :=
  match fuel with
  | O => None
  | S fuel' =>
      match first_way (fun w => row !!! w =? MAX_RRPV) 0 LLC_WAYS with
      | Some w => Some (w, row)
      | None => rrip_row fuel' (age1 <$> row)
      end
  end.

(** ** Sample states *)

(** The initial tables with the epoch counters, the previous miss rate and
    the threshold of the end of some epoch. *)
Definition epoch_end (accesses misses inserts hits : Z) (prev : spec_float)
    (thr : Z) : State :=
  {| RRPV := RRPV InitReplacementState;
     valid_entries := valid_entries InitReplacementState;
     sig_mem := sig_mem InitReplacementState;
     has_hit := has_hit InitReplacementState;
     is_streaming := is_streaming InitReplacementState;
     SHCT := SHCT InitReplacementState;
     STCT := STCT InitReplacementState;
     last_addr := last_addr InitReplacementState;
     g_STCT_THRESHOLD := thr;
     stat_hits := 0;
     stat_misses := 0;
     epoch_accesses := accesses;
     epoch_hits := 0;
     epoch_misses := misses;
     stream_inserts := inserts;
     stream_hits := hits;
     stream_misses := 0;
     prev_miss_rate := prev |}.

(** Every line valid and never hit, with the same [rrpv], signature and
    streaming flag; the tables as initialised. *)
Definition full_state (r sig : Z) (streaming : bool) : State :=
  {| RRPV := replicate LLC_SETS (replicate LLC_WAYS r);
     valid_entries := replicate LLC_SETS (replicate LLC_WAYS true);
     sig_mem := replicate LLC_SETS (replicate LLC_WAYS sig);
     has_hit := replicate LLC_SETS (replicate LLC_WAYS false);
     is_streaming := replicate LLC_SETS (replicate LLC_WAYS streaming);
     SHCT := SHCT InitReplacementState;
     STCT := STCT InitReplacementState;
     last_addr := last_addr InitReplacementState;
     g_STCT_THRESHOLD := g_STCT_THRESHOLD InitReplacementState;
     stat_hits := 0;
     stat_misses := 0;
     epoch_accesses := 0;
     epoch_hits := 0;
     epoch_misses := 0;
     stream_inserts := 0;
     stream_hits := 0;
     stream_misses := 0;
     prev_miss_rate := dzero |}.

(** The state a miss leaves behind, when the search returns within four
    iterations. *)
Definition after_miss (set : nat) (PC paddr : Z) (st : State) : State :=
  match GetVictimInSet (BLOCK := unit) 4 0 set [] PC paddr 0 st with
  | Some (_, st') => st'
  | None => st
  end.





(** The end-to-end scenario: sixteen instructions four bytes apart, each
    touching the cache line after the previous one. *)
Definition scenario16 : list (Z * Z) :=
  (fun i => (0x400000 + 4 * Z.of_nat i, 0x10000 + 64 * Z.of_nat i)) <$> seq 0 16.

(** The state of [set] while it fills: the first [k] ways valid with
    [rrpv = 0], the others invalid, no SHCT entry moved yet, [k] accesses
    in the epoch. *)
Definition fill_inv (set k : nat) (st : State) : Prop :=
  shape2 (RRPV st) /\ shape2 (valid_entries st)
  /\ (forall w, (w < LLC_WAYS)%nat ->
        get2 (valid_entries st) set w = bool_decide (w < k)%nat)
  /\ (forall w, (w < k)%nat -> get2 (RRPV st) set w = 0)
  /\ SHCT st = SHCT InitReplacementState
  /\ epoch_accesses st = Z.of_nat k.

(** * Proofs *)

(** ** Machine arithmetic *)

(** The literals are the correctly rounded quotients they are written as,
    and the values the prover's own binary64 parser gives them. *)
#[local] Set Warnings "-inexact-float".
Example literal_doubles :
  PHASE_CHANGE_DELTA = SFdiv prec64 emax64 (double_of_u64 5) (double_of_u64 100)
  /\ STREAM_LOW_RATIO = SFdiv prec64 emax64 (double_of_u64 10) (double_of_u64 100)
  /\ STREAM_HIGH_RATIO = SFdiv prec64 emax64 (double_of_u64 70) (double_of_u64 100)
  /\ PHASE_CHANGE_DELTA = Prim2SF 0.05%float
  /\ STREAM_LOW_RATIO = Prim2SF 0.10%float
  /\ STREAM_HIGH_RATIO = Prim2SF 0.70%float.
Proof. vm_compute. repeat split. Qed.
#[local] Set Warnings "+inexact-float".

Lemma wrap8_small x : 0 <= x < 256 -> wrap8 x = x.
Proof. intros. unfold wrap8. apply Z.mod_small. lia. Qed.

Lemma GetSignature_range PC : 0 <= GetSignature PC < SIG_TABLE_SIZE.
Proof.
  unfold GetSignature, wrap32, SIG_TABLE_SIZE.
  set (x := Z.lxor _ _).
  change (2048 - 1) with (Z.ones 11).
  rewrite Z.land_ones by lia.
  pose proof (Z.mod_pos_bound x (2 ^ 11) ltac:(lia)).
  rewrite Z.mod_small; lia.
Qed.

Lemma sig_index PC : (Z.to_nat (GetSignature PC) < Z.to_nat SIG_TABLE_SIZE)%nat.
Proof. pose proof (GetSignature_range PC). lia. Qed.

(** The signed difference of line 128 is [1] or [-1] exactly when the block
    addresses are adjacent, for any previous address other than the
    sentinel. *)
Lemma sint64_delta blk last :
  0 <= blk < 2 ^ 58 -> 0 <= last < 2 ^ 64 -> last <> INVALID_BLK ->
  ((sint64 (sint64 blk - sint64 last) =? 1) || (sint64 (sint64 blk - sint64 last) =? -1))
  = ((blk - last =? 1) || (blk - last =? -1)).
Proof.
  unfold INVALID_BLK, sint64. intros Hb Hl Hne.
  assert (H64 : 2 ^ 64 = 18446744073709551616) by reflexivity.
  assert (H63 : 2 ^ 63 = 9223372036854775808) by reflexivity.
  assert (H58 : 2 ^ 58 = 288230376151711744) by reflexivity.
  rewrite H64, H63 in *. rewrite H58 in Hb.
  rewrite (Z.mod_small (blk + _)) by lia.
  destruct (Z_lt_ge_dec last 9223372036854775808) as [Hs|Hs].
  - rewrite (Z.mod_small (last + _)) by lia.
    replace (blk + 9223372036854775808 - 9223372036854775808
             - (last + 9223372036854775808 - 9223372036854775808)
             + 9223372036854775808)
      with (blk - last + 9223372036854775808) by lia.
    rewrite Z.mod_small by lia.
    replace (blk - last + 9223372036854775808 - 9223372036854775808)
      with (blk - last) by lia.
    reflexivity.
  - replace ((last + 9223372036854775808) mod 18446744073709551616)
      with (last - 9223372036854775808).
    2:{ apply Z.mod_unique with (q := 1); lia. }
    replace ((blk + 9223372036854775808 - 9223372036854775808
              - (last - 9223372036854775808 - 9223372036854775808)
              + 9223372036854775808) mod 18446744073709551616)
      with (blk - last + 18446744073709551616 + 9223372036854775808
            - (if blk - last + 9223372036854775808 <? 0
               then 0 else 18446744073709551616)).
    2:{ destruct (Z.ltb_spec (blk - last + 9223372036854775808) 0).
        - apply Z.mod_unique with (q := 0); lia.
        - apply Z.mod_unique with (q := 1); lia. }
    destruct (Z.ltb_spec (blk - last + 9223372036854775808) 0);
      destruct (Z.eqb_spec (blk - last) 1); destruct (Z.eqb_spec (blk - last) (-1));
      try lia;
      repeat match goal with
             | |- context [?a =? ?b] => destruct (Z.eqb_spec a b); try lia
             end; reflexivity.
Qed.

(** ** Arrays *)

Section Arrays.
Context {A : Type} `{!Inhabited A}.
Implicit Types (a : list (list A)) (s w : nat) (v : A).

Lemma shape2_row a s :
  shape2 a -> (s < LLC_SETS)%nat -> length (a !!! s) = LLC_WAYS.
Proof.
  intros [Hl Hr] Hs.
  apply (Forall_lookup_total_1 _ _ s) in Hr; [exact Hr | lia].
Qed.

Lemma shape2_set2 a s w v : shape2 a -> shape2 (set2 a s w v).
Proof.
  intros [Hl Hr]. unfold set2. split.
  - by rewrite length_insert.
  - destruct (decide (s < length a)%nat) as [Hs|Hs].
    + apply Forall_insert; [exact Hr|]. rewrite length_insert.
      apply (Forall_lookup_total_1 _ _ s) in Hr; [exact Hr | lia].
    + rewrite list_insert_ge by lia. exact Hr.
Qed.

Lemma shape2_insert a s (row : list A) :
  shape2 a -> length row = LLC_WAYS -> shape2 (<[s := row]> a).
Proof.
  intros [Hl Hr] Hrow. split.
  - by rewrite length_insert.
  - destruct (decide (s < length a)%nat) as [Hs|Hs].
    + by apply Forall_insert.
    + by rewrite list_insert_ge by lia.
Qed.

Lemma get2_set2_eq a s w v :
  shape2 a -> (s < LLC_SETS)%nat -> (w < LLC_WAYS)%nat ->
  get2 (set2 a s w v) s w = v.
Proof.
  intros Ha Hs Hw. unfold get2, set2.
  rewrite list_lookup_total_insert_eq by (destruct Ha; lia).
  apply list_lookup_total_insert_eq. by rewrite shape2_row.
Qed.

Lemma get2_set2_ne a s w s' w' v :
  s <> s' \/ w <> w' -> get2 (set2 a s w v) s' w' = get2 a s' w'.
Proof.
  intros Hne. unfold get2, set2.
  destruct (decide (s = s')) as [->|Hss].
  - destruct (decide (s' < length a)%nat).
    + rewrite list_lookup_total_insert_eq by done.
      apply list_lookup_total_insert_ne. by destruct Hne.
    + by rewrite list_insert_ge by lia.
  - by rewrite list_lookup_total_insert_ne.
Qed.

Lemma get2_set2_other a s w s' w' v :
  s' <> s \/ w' <> w -> get2 (set2 a s w v) s' w' = get2 a s' w'.
Proof.
  intros [Hne|Hne]; apply get2_set2_ne; [left|right]; congruence.
Qed.

Lemma get2_set2 a s w s' w' v :
  shape2 a -> (s < LLC_SETS)%nat -> (w < LLC_WAYS)%nat ->
  get2 (set2 a s w v) s' w'
  = if decide (s = s' /\ w = w') then v else get2 a s' w'.
Proof.
  intros Ha Hs Hw. case_decide as Hd.
  - destruct Hd as [<- <-]. by apply get2_set2_eq.
  - apply get2_set2_ne. destruct (decide (s = s')) as [->|]; [right|left]; [|done].
    intros ->. by apply Hd.
Qed.

Lemma Forall2_set2 (P : A -> Prop) a s w v :
  Forall (Forall P) a -> P v -> Forall (Forall P) (set2 a s w v).
Proof.
  intros Ha Hv. unfold set2.
  destruct (decide (s < length a)%nat) as [Hs|Hs].
  - apply Forall_insert; [exact Ha|].
    apply (Forall_lookup_total_1 _ _ s) in Ha; [|lia].
    destruct (decide (w < length (a !!! s))%nat).
    + by apply Forall_insert.
    + by rewrite list_insert_ge by lia.
  - by rewrite list_insert_ge by lia.
Qed.

Lemma Forall2_get2 (P : A -> Prop) a s w :
  Forall (Forall P) a -> shape2 a -> (s < LLC_SETS)%nat -> (w < LLC_WAYS)%nat ->
  P (get2 a s w).
Proof.
  intros Ha Hsh Hs Hw. unfold get2.
  apply (Forall_lookup_total_1 _ _ s) in Ha; [|destruct Hsh; lia].
  apply (Forall_lookup_total_1 _ _ w) in Ha; [exact Ha|].
  by rewrite shape2_row.
Qed.
End Arrays.

(** ** The scan loops *)

Lemma rrip_loop_S fuel set rr :
  rrip_loop (S fuel) set rr
  = match first_way (fun w => get2 rr set w =? MAX_RRPV) 0 LLC_WAYS with
    | Some w => Some (w, rr)
    | None => rrip_loop fuel set (age_set set rr)
    end.
Proof. reflexivity. Qed.

Lemma rrip_row_S fuel row :
  rrip_row (S fuel) row
  = match first_way (fun w => row !!! w =? MAX_RRPV) 0 LLC_WAYS with
    | Some w => Some (w, row)
    | None => rrip_row fuel (age1 <$> row)
    end.
Proof. reflexivity. Qed.

Lemma first_way_spec p lo n :
  match first_way p lo n with
  | Some w => (lo <= w < lo + n)%nat /\ p w = true
              /\ forall w', (lo <= w' < w)%nat -> p w' = false
  | None => forall w, (lo <= w < lo + n)%nat -> p w = false
  end.
Proof.
  revert lo. induction n as [|n IH]; intros lo; simpl.
  - intros w Hw. lia.
  - destruct (p lo) eqn:Hp.
    + repeat split; [lia | lia | exact Hp | intros w' Hw'; lia].
    + specialize (IH (S lo)). destruct (first_way p (S lo) n) as [w|].
      * destruct IH as (Hr & Hw & Hlow). repeat split; [lia | lia | exact Hw |].
        intros w' Hw'. destruct (decide (w' = lo)) as [->|]; [exact Hp|].
        apply Hlow. lia.
      * intros w Hw. destruct (decide (w = lo)) as [->|]; [exact Hp|].
        apply IH. lia.
Qed.

Lemma first_way_Some p n w :
  first_way p 0 n = Some w ->
  (w < n)%nat /\ p w = true /\ forall w', (w' < w)%nat -> p w' = false.
Proof.
  intros H. pose proof (first_way_spec p 0 n) as Hs. rewrite H in Hs.
  destruct Hs as (Hr & Hp & Hlow). repeat split; [lia | exact Hp |].
  intros w' Hw'. apply Hlow. lia.
Qed.

Lemma first_way_None p n :
  first_way p 0 n = None -> forall w, (w < n)%nat -> p w = false.
Proof.
  intros H w Hw. pose proof (first_way_spec p 0 n) as Hs. rewrite H in Hs.
  apply Hs. lia.
Qed.

Lemma first_way_least p n w :
  (w < n)%nat -> p w = true -> (forall w', (w' < w)%nat -> p w' = false) ->
  first_way p 0 n = Some w.
Proof.
  intros Hw Hp Hlow. destruct (first_way p 0 n) as [w0|] eqn:E.
  - apply first_way_Some in E as (Hr & Hp0 & Hlow0). f_equal.
    destruct (Nat.lt_trichotomy w0 w) as [Hlt|[Heq|Hgt]]; [|exact Heq|].
    + rewrite Hlow in Hp0 by exact Hlt. discriminate.
    + rewrite Hlow0 in Hp by exact Hgt. discriminate.
  - rewrite (first_way_None _ _ E w Hw) in Hp. discriminate.
Qed.

(** ** Aging *)

Lemma age_fold set (rr : list (list Z)) (pre todo : list Z) :
  (set < length rr)%nat ->
  foldl (age_way set) (<[set := pre ++ todo]> rr) (seq (length pre) (length todo))
  = <[set := pre ++ (age1 <$> todo)]> rr.
Proof.
  intros Hset. revert pre. induction todo as [|x todo IH]; intros pre; simpl.
  - reflexivity.
  - assert (Hstep : age_way set (<[set := pre ++ x :: todo]> rr) (length pre)
                    = <[set := (pre ++ [age1 x]) ++ todo]> rr).
    { unfold age_way, get2, set2, age1.
      rewrite list_lookup_total_insert_eq by exact Hset.
      rewrite list_lookup_total_middle by reflexivity.
      rewrite <- app_assoc. simpl.
      destruct (x <? MAX_RRPV); [|reflexivity].
      rewrite list_insert_insert_eq. f_equal.
      rewrite insert_app_r_alt by lia. by rewrite Nat.sub_diag. }
    rewrite Hstep.
    replace (S (length pre)) with (length (pre ++ [age1 x]))
      by (rewrite length_app; simpl; lia).
    rewrite IH. by rewrite <- app_assoc.
Qed.

(** One pass of lines 65-67 rewrites the row of [set] with [age1] and
    leaves every other row alone. *)
Lemma age_set_row set (rr : list (list Z)) :
  (set < length rr)%nat -> length (rr !!! set) = LLC_WAYS ->
  age_set set rr = <[set := age1 <$> (rr !!! set)]> rr.
Proof.
  intros Hset Hrow. unfold age_set. rewrite <- Hrow.
  pose proof (age_fold set rr [] (rr !!! set) Hset) as H. simpl in H.
  rewrite (list_insert_id rr set (rr !!! set)) in H
    by (by apply list_lookup_lookup_total_lt).
  exact H.
Qed.

Lemma rrip_loop_row fuel set (rr : list (list Z)) :
  (set < length rr)%nat -> length (rr !!! set) = LLC_WAYS ->
  rrip_loop fuel set rr
  = match rrip_row fuel (rr !!! set) with
    | Some (w, row) => Some (w, <[set := row]> rr)
    | None => None
    end.
Proof.
  revert rr. induction fuel as [|fuel IH]; intros rr Hset Hrow.
  - reflexivity.
  - rewrite rrip_loop_S, rrip_row_S. unfold get2.
    destruct (first_way (fun w => (rr !!! set) !!! w =? MAX_RRPV) 0 LLC_WAYS).
    + do 2 f_equal. symmetry. apply list_insert_id.
      by apply list_lookup_lookup_total_lt.
    + rewrite age_set_row by assumption.
      rewrite IH.
      * rewrite list_lookup_total_insert_eq by exact Hset.
        destruct (rrip_row fuel (age1 <$> (rr !!! set))) as [[w row]|]; [|reflexivity].
        by rewrite list_insert_insert_eq.
      * by rewrite length_insert.
      * rewrite list_lookup_total_insert_eq by exact Hset.
        by rewrite length_fmap.
Qed.

Lemma age1_range r : 0 <= r <= MAX_RRPV -> 0 <= age1 r <= MAX_RRPV.
Proof.
  unfold age1, MAX_RRPV. intros Hr.
  destruct (Z.ltb_spec r 3); [rewrite wrap8_small|]; lia.
Qed.

Lemma age1_below r : 0 <= r < MAX_RRPV -> age1 r = r + 1.
Proof.
  unfold age1, MAX_RRPV. intros Hr.
  destruct (Z.ltb_spec r 3); [rewrite wrap8_small|]; lia.
Qed.

Lemma age1_max : age1 MAX_RRPV = MAX_RRPV.
Proof. reflexivity. Qed.

Lemma age_row_lookup (row : list Z) w :
  (w < length row)%nat -> (age1 <$> row) !!! w = age1 (row !!! w).
Proof. intros Hw. by apply (list_lookup_total_fmap age1 row w). Qed.

(** The search returns after at most [k] aging passes when some way is
    within [k] of [MAX_RRPV]. *)
Lemma rrip_row_terminates k : forall fuel (row : list Z),
  length row = LLC_WAYS -> (k < fuel)%nat ->
  (exists w, (w < LLC_WAYS)%nat /\ 0 <= row !!! w
             /\ MAX_RRPV - Z.of_nat k <= row !!! w <= MAX_RRPV) ->
  exists w n, (n <= k)%nat
    /\ rrip_row fuel row = Some (w, Nat.iter n (fmap age1) row)
    /\ (w < LLC_WAYS)%nat
    /\ Nat.iter n (fmap age1) row !!! w = MAX_RRPV
    /\ (forall w', (w' < w)%nat -> Nat.iter n (fmap age1) row !!! w' <> MAX_RRPV).
Proof.
  induction k as [|k IH]; intros fuel row Hlen Hfuel (w & Hw & Hpos & Hr);
    (destruct fuel as [|fuel]; [lia|]); rewrite rrip_row_S;
    destruct (first_way (fun w => row !!! w =? MAX_RRPV) 0 LLC_WAYS) as [w0|] eqn:E.
  - apply first_way_Some in E as (Hw0 & Hp & Hlow).
    exists w0, 0%nat. simpl. repeat split; [lia | exact Hw0 | lia |].
    intros w' Hw'. specialize (Hlow w' Hw'). simpl in Hlow. lia.
  - pose proof (first_way_None _ _ E w Hw) as Hn. simpl in Hn. lia.
  - apply first_way_Some in E as (Hw0 & Hp & Hlow).
    exists w0, 0%nat. simpl. repeat split; [lia | exact Hw0 | lia |].
    intros w' Hw'. specialize (Hlow w' Hw'). simpl in Hlow. lia.
  - pose proof (first_way_None _ _ E w Hw) as Hn. simpl in Hn.
    destruct (IH fuel (age1 <$> row)) as (w1 & n & Hn1 & Hrun & Hw1 & Hmax & Hlow).
    + by rewrite length_fmap.
    + lia.
    + exists w. split; [exact Hw|].
      rewrite age_row_lookup by lia.
      rewrite age1_below by lia. lia.
    + exists w1, (S n). rewrite Nat.iter_succ_r.
      repeat split; [lia | exact Hrun | exact Hw1 | exact Hmax | exact Hlow].
Qed.

Lemma rrip_row_Some fuel : forall (row : list Z) w row',
  rrip_row fuel row = Some (w, row') ->
  exists n, (n < fuel)%nat /\ row' = Nat.iter n (fmap age1) row
            /\ (w < LLC_WAYS)%nat /\ row' !!! w = MAX_RRPV
            /\ (forall w', (w' < w)%nat -> row' !!! w' <> MAX_RRPV).
Proof.
  induction fuel as [|fuel IH]; intros row w row' H; [discriminate|].
  rewrite rrip_row_S in H.
  destruct (first_way (fun w => row !!! w =? MAX_RRPV) 0 LLC_WAYS) as [w0|] eqn:E.
  - injection H as -> ->. apply first_way_Some in E as (Hw & Hp & Hlow).
    exists 0%nat. simpl in *. repeat split; [lia | exact Hw | lia |].
    intros w' Hw'. specialize (Hlow w' Hw'). simpl in Hlow. lia.
  - apply IH in H as (n & Hn & -> & Hw & Hmax & Hlow).
    exists (S n). rewrite Nat.iter_succ_r.
    repeat split; [lia | exact Hw | exact Hmax | exact Hlow].
Qed.

Lemma age_iter_length n (row : list Z) :
  length (Nat.iter n (fmap age1) row) = length row.
Proof. induction n as [|n IH]; simpl; [reflexivity|]. by rewrite length_fmap. Qed.

Lemma age_iter_range n (row : list Z) :
  Forall (fun r => 0 <= r <= MAX_RRPV) row ->
  Forall (fun r => 0 <= r <= MAX_RRPV) (Nat.iter n (fmap age1) row).
Proof.
  intros H. induction n as [|n IH]; simpl; [exact H|].
  apply Forall_fmap. eapply Forall_impl; [exact IH|].
  intros r Hr. by apply age1_range.
Qed.

Lemma age_iter_lookup n (row : list Z) w :
  (w < length row)%nat -> 0 <= row !!! w <= MAX_RRPV ->
  Nat.iter n (fmap age1) row !!! w = Z.min (row !!! w + Z.of_nat n) MAX_RRPV.
Proof.
  intros Hw Hr. induction n as [|n IH].
  - simpl. lia.
  - rewrite Nat.iter_succ. rewrite age_row_lookup by (by rewrite age_iter_length).
    rewrite IH. unfold age1, MAX_RRPV in *.
    destruct (Z.ltb_spec (Z.min (row !!! w + Z.of_nat n) 3) 3);
      [rewrite wrap8_small|]; lia.
Qed.

(** The search stops at the first pass count that brings some way to
    [MAX_RRPV]. *)
Lemma rrip_row_first fuel : forall (row : list Z) w row',
  rrip_row fuel row = Some (w, row') ->
  exists n, row' = Nat.iter n (fmap age1) row
    /\ (forall m w', (m < n)%nat -> (w' < LLC_WAYS)%nat ->
          Nat.iter m (fmap age1) row !!! w' <> MAX_RRPV)
    /\ (w < LLC_WAYS)%nat /\ row' !!! w = MAX_RRPV
    /\ (forall w', (w' < w)%nat -> row' !!! w' <> MAX_RRPV).
Proof.
  induction fuel as [|fuel IH]; intros row w row' H; [discriminate|].
  rewrite rrip_row_S in H.
  destruct (first_way (fun w => row !!! w =? MAX_RRPV) 0 LLC_WAYS) as [w0|] eqn:E.
  - injection H as -> ->. apply first_way_Some in E as (Hw & Hp & Hlow).
    exists 0%nat. simpl in *. repeat split; [intros; lia | exact Hw | lia |].
    intros w' Hw'. specialize (Hlow w' Hw'). simpl in Hlow. lia.
  - apply IH in H as (n & -> & Hbefore & Hw & Hmax & Hlow).
    exists (S n). rewrite Nat.iter_succ_r.
    repeat split; [| exact Hw | exact Hmax | exact Hlow].
    intros m w' Hm Hw'. destruct m as [|m].
    + pose proof (first_way_None _ _ E w' Hw') as Hn. simpl in *. lia.
    + rewrite Nat.iter_succ_r. apply Hbefore; [lia | exact Hw'].
Qed.

(** With some way in range, the first such pass count is at most
    [MAX_RRPV]. *)
Lemma rrip_row_passes fuel (row : list Z) w row' :
  length row = LLC_WAYS ->
  (exists w0, (w0 < LLC_WAYS)%nat /\ 0 <= row !!! w0 <= MAX_RRPV) ->
  rrip_row fuel row = Some (w, row') ->
  exists n, (n <= Z.to_nat MAX_RRPV)%nat
    /\ row' = Nat.iter n (fmap age1) row
    /\ (forall m w', (m < n)%nat -> (w' < LLC_WAYS)%nat ->
          Nat.iter m (fmap age1) row !!! w' <> MAX_RRPV)
    /\ (w < LLC_WAYS)%nat /\ row' !!! w = MAX_RRPV
    /\ (forall w', (w' < w)%nat -> row' !!! w' <> MAX_RRPV).
Proof.
  intros Hlen (w0 & Hw0 & Hr0) H.
  apply rrip_row_first in H as (n & -> & Hbefore & Hw & Hmax & Hlow).
  exists n. repeat split; try assumption.
  destruct (Nat.le_gt_cases n (Z.to_nat MAX_RRPV)) as [|Hgt]; [assumption|].
  exfalso. apply (Hbefore (Z.to_nat (MAX_RRPV - row !!! w0)) w0); [lia | exact Hw0 |].
  rewrite age_iter_lookup by (rewrite ?Hlen; assumption). lia.
Qed.

(** Aging the array [n] times is aging the row of [set] [n] times. *)
Lemma age_set_iter set (rr : list (list Z)) n :
  (set < length rr)%nat -> length (rr !!! set) = LLC_WAYS ->
  Nat.iter n (age_set set) rr = <[set := Nat.iter n (fmap age1) (rr !!! set)]> rr.
Proof.
  intros Hset Hrow. induction n as [|n IH].
  - simpl. symmetry. by apply list_insert_id, list_lookup_lookup_total_lt.
  - rewrite !Nat.iter_succ, IH. rewrite age_set_row.
    + rewrite list_lookup_total_insert_eq by exact Hset.
      by rewrite list_insert_insert_eq.
    + by rewrite length_insert.
    + rewrite list_lookup_total_insert_eq by exact Hset.
      by rewrite age_iter_length.
Qed.

(** ** [FindVictimWay] *)

Lemma FindVictimWay_invalid fuel set st w :
  (w < LLC_WAYS)%nat -> get2 (valid_entries st) set w = false ->
  (forall w', (w' < w)%nat -> get2 (valid_entries st) set w' = true) ->
  FindVictimWay fuel set st = Some (w, st).
Proof.
  intros Hw Hinv Hlow. unfold FindVictimWay.
  rewrite (first_way_least _ _ w Hw); [reflexivity | by rewrite Hinv |].
  intros w' Hw'. by rewrite Hlow.
Qed.

Lemma FindVictimWay_all_valid fuel set st :
  shape2 (RRPV st) -> (set < LLC_SETS)%nat ->
  (forall w, (w < LLC_WAYS)%nat -> get2 (valid_entries st) set w = true) ->
  FindVictimWay fuel set st
  = match rrip_row fuel (RRPV st !!! set) with
    | Some (w, row) => Some (w, with_RRPV (<[set := row]> (RRPV st)) st)
    | None => None
    end.
Proof.
  intros Hsh Hset Hval. unfold FindVictimWay.
  destruct (first_way _ 0 LLC_WAYS) as [w|] eqn:E.
  - apply first_way_Some in E as (Hw & Hp & _). rewrite Hval in Hp by exact Hw.
    discriminate.
  - rewrite rrip_loop_row; [| destruct Hsh; lia | by apply shape2_row].
    by destruct (rrip_row fuel (RRPV st !!! set)) as [[w row]|].
Qed.

(** What a returned way tells about the state: either it is the first
    invalid way and nothing changed, or every way is valid, the row of
    [set] went through [n] aging passes and the way is the first one at
    [MAX_RRPV]. *)
Lemma FindVictimWay_inv fuel set st w st' :
  shape2 (RRPV st) -> (set < LLC_SETS)%nat ->
  FindVictimWay fuel set st = Some (w, st') ->
  (w < LLC_WAYS)%nat /\
  ((get2 (valid_entries st) set w = false
    /\ (forall w', (w' < w)%nat -> get2 (valid_entries st) set w' = true)
    /\ st' = st)
   \/ ((forall w', (w' < LLC_WAYS)%nat -> get2 (valid_entries st) set w' = true)
       /\ exists n, (n < fuel)%nat
          /\ st' = with_RRPV (<[set := Nat.iter n (fmap age1) (RRPV st !!! set)]> (RRPV st)) st
          /\ Nat.iter n (fmap age1) (RRPV st !!! set) !!! w = MAX_RRPV)).
Proof.
  intros Hsh Hset H.
  destruct (first_way (fun w => negb (get2 (valid_entries st) set w)) 0 LLC_WAYS)
    as [w0|] eqn:E.
  - unfold FindVictimWay in H. rewrite E in H. injection H as -> ->.
    apply first_way_Some in E as (Hw & Hp & Hlow). split; [exact Hw|]. left.
    repeat split.
    + by apply negb_true_iff in Hp.
    + intros w' Hw'. specialize (Hlow w' Hw'). by apply negb_false_iff in Hlow.
  - assert (Hval : forall w', (w' < LLC_WAYS)%nat ->
                              get2 (valid_entries st) set w' = true).
    { intros w' Hw'. pose proof (first_way_None _ _ E w' Hw') as Hn.
      by apply negb_false_iff in Hn. }
    rewrite FindVictimWay_all_valid in H by assumption.
    destruct (rrip_row fuel (RRPV st !!! set)) as [[w1 row]|] eqn:Er; [|discriminate].
    injection H as -> <-.
    apply rrip_row_Some in Er as (n & Hn & -> & Hw & Hmax & _).
    split; [exact Hw|]. right. split; [exact Hval|]. by exists n.
Qed.

Lemma with_RRPV_id st : with_RRPV (RRPV st) st = st.
Proof. by destruct st. Qed.

(** With every [rrpv] of the row in range, [MAX_RRPV + 1] iterations of
    the loop body are enough, and at most [MAX_RRPV] of them age the row. *)
Lemma FindVictimWay_total fuel set st :
  shape2 (RRPV st) -> (set < LLC_SETS)%nat ->
  Forall (Forall (fun r => 0 <= r <= MAX_RRPV)) (RRPV st) ->
  (Z.to_nat MAX_RRPV < fuel)%nat ->
  exists w n, (n <= Z.to_nat MAX_RRPV)%nat /\ (w < LLC_WAYS)%nat
    /\ FindVictimWay fuel set st
       = Some (w, with_RRPV (<[set := Nat.iter n (fmap age1) (RRPV st !!! set)]> (RRPV st)) st).
Proof.
  intros Hsh Hset Hr Hfuel.
  destruct (first_way (fun w => negb (get2 (valid_entries st) set w)) 0 LLC_WAYS)
    as [w0|] eqn:E.
  - exists w0, 0%nat. unfold FindVictimWay. rewrite E.
    apply first_way_Some in E as (Hw0 & _). repeat split; [lia | exact Hw0 |].
    simpl. rewrite list_insert_id by (apply list_lookup_lookup_total_lt; destruct Hsh; lia).
    by rewrite with_RRPV_id.
  - rewrite FindVictimWay_all_valid; [| assumption | assumption |].
    2:{ intros w' Hw'. pose proof (first_way_None _ _ E w' Hw') as Hn.
        by apply negb_false_iff in Hn. }
    destruct (rrip_row_terminates (Z.to_nat MAX_RRPV) fuel (RRPV st !!! set))
      as (w & n & Hn & Hrun & Hw & _).
    + by apply shape2_row.
    + exact Hfuel.
    + exists 0%nat. split; [unfold LLC_WAYS; lia|].
      pose proof (Forall2_get2 _ _ set 0%nat Hr Hsh Hset ltac:(unfold LLC_WAYS; lia)) as H0.
      unfold get2 in H0. simpl in H0. unfold MAX_RRPV in *. lia.
    + exists w, n. rewrite Hrun. by repeat split.
Qed.

(** ** The table loops and the threshold *)

Lemma fill_fold v (pre todo : list Z) :
  foldl (fun t i => <[i := v]> t) (pre ++ todo) (seq (length pre) (length todo))
  = pre ++ replicate (length todo) v.
Proof.
  revert pre. induction todo as [|x todo IH]; intros pre; simpl; [reflexivity|].
  rewrite insert_app_r_alt by lia. rewrite Nat.sub_diag. simpl.
  replace (S (length pre)) with (length (pre ++ [v]))
    by (rewrite length_app; simpl; lia).
  rewrite (cons_middle v pre todo), app_assoc, IH.
  by rewrite <- app_assoc.
Qed.

Lemma fill_table_replicate v (t : list Z) :
  length t = Z.to_nat SIG_TABLE_SIZE ->
  fill_table v t = replicate (Z.to_nat SIG_TABLE_SIZE) v.
Proof.
  intros Hlen. unfold fill_table. rewrite <- Hlen.
  exact (fill_fold v [] t).
Qed.

Lemma tget_replicate v sig :
  0 <= sig < SIG_TABLE_SIZE -> tget (replicate (Z.to_nat SIG_TABLE_SIZE) v) sig = v.
Proof. intros H. unfold tget. apply lookup_total_replicate_2. lia. Qed.

(** A ratio below the low bound is not above the high bound. *)
Lemma SFltb_exponent_gap m1 m2 e1 e2 r :
  e1 < e2 ->
  SFltb r (S754_finite false m1 e1) = true ->
  SFltb (S754_finite false m2 e2) r = false.
Proof.
  intros He. unfold SFltb.
  destruct r as [s|s| |s m e]; simpl;
    try congruence; try (destruct s; simpl; congruence).
  destruct s; simpl; [reflexivity|].
  destruct (Z.compare_spec e e1); destruct (Z.compare_spec e2 e);
    try lia; try congruence.
Qed.

Lemma ratio_low_not_high r :
  dlt r STREAM_LOW_RATIO = true -> dlt STREAM_HIGH_RATIO r = false.
Proof. apply SFltb_exponent_gap. lia. Qed.

Lemma adapt_threshold_spec ratio thr :
  1 <= thr <= STCT_MAX ->
  adapt_threshold ratio thr
  = if dlt ratio STREAM_LOW_RATIO then Z.min (thr + 1) STCT_MAX
    else if dlt STREAM_HIGH_RATIO ratio then Z.max (thr - 1) 1
    else thr.
Proof.
  unfold adapt_threshold, STCT_MAX. intros Hthr.
  destruct (dlt ratio STREAM_LOW_RATIO) eqn:Hlow; simpl.
  - destruct (Z.ltb_spec thr 3).
    + rewrite wrap8_small; lia.
    + rewrite (ratio_low_not_high _ Hlow). simpl. lia.
  - destruct (dlt STREAM_HIGH_RATIO ratio); simpl; [|reflexivity].
    destruct (Z.ltb_spec 1 thr); [rewrite wrap8_small|]; lia.
Qed.

Lemma adapt_threshold_range ratio thr :
  1 <= thr <= STCT_MAX -> 1 <= adapt_threshold ratio thr <= STCT_MAX.
Proof.
  intros Hthr. rewrite adapt_threshold_spec by exact Hthr. unfold STCT_MAX in *.
  destruct (dlt ratio STREAM_LOW_RATIO); [lia|].
  destruct (dlt STREAM_HIGH_RATIO ratio); lia.
Qed.

(** ** Well-formedness is preserved *)

Ltac proj :=
  cbn [RRPV valid_entries sig_mem has_hit is_streaming SHCT STCT last_addr
       g_STCT_THRESHOLD stat_hits stat_misses epoch_accesses epoch_hits
       epoch_misses stream_inserts stream_hits stream_misses prev_miss_rate].

Lemma shape2_replicate {A} (x : A) :
  shape2 (replicate LLC_SETS (replicate LLC_WAYS x)).
Proof.
  split; [apply length_replicate|].
  apply Forall_replicate, length_replicate.
Qed.

Lemma InitReplacementState_wf : wf InitReplacementState.
Proof.
  split; constructor; unfold InitReplacementState; proj;
    try apply shape2_replicate; try apply length_replicate;
    repeat apply Forall_replicate;
    unfold MAX_RRPV, SHCT_INIT, SHCT_MAX, STCT_INIT, STCT_MAX, SIG_TABLE_SIZE,
      INVALID_BLK;
    try lia.
  unfold wrap8. change ((1 + 1) mod 2 ^ 8) with 2. lia.
Qed.

Lemma stream_counter_range last blk c :
  0 <= c <= STCT_MAX -> 0 <= stream_counter last blk c <= STCT_MAX.
Proof.
  unfold stream_counter, STCT_MAX. intros Hc.
  destruct (last =? INVALID_BLK); [lia|].
  destruct (_ || _).
  - destruct (Z.ltb_spec c 3); [rewrite wrap8_small|]; lia.
  - destruct (Z.ltb_spec 0 c); [rewrite wrap8_small|]; lia.
Qed.

Lemma tget_range (P : Z -> Prop) t i :
  Forall P t -> length t = Z.to_nat SIG_TABLE_SIZE -> 0 <= i < SIG_TABLE_SIZE ->
  P (tget t i).
Proof.
  intros Ht Hl Hi. unfold tget. apply Forall_lookup_total_1; [exact Ht | lia].
Qed.

Lemma tget_tset_eq t i v :
  length t = Z.to_nat SIG_TABLE_SIZE -> 0 <= i < SIG_TABLE_SIZE ->
  tget (tset t i v) i = v.
Proof.
  intros Hl Hi. unfold tget, tset. apply list_lookup_total_insert_eq. lia.
Qed.

Lemma tget_tset_ne t i j v :
  0 <= i -> 0 <= j -> i <> j -> tget (tset t i v) j = tget t j.
Proof.
  intros Hi Hj Hne. unfold tget, tset. apply list_lookup_total_insert_ne. lia.
Qed.

Lemma stream_update_wf sig blk st :
  wf st -> 0 <= sig < SIG_TABLE_SIZE -> 0 <= blk < 2 ^ 64 ->
  wf (stream_update sig blk st).
Proof.
  intros [[Hr Hh Ht Hthr] [S1 S2 S3 S4 S5 L1 L2 L3 Hsig Hadr]] Hs Hb.
  split; constructor; unfold stream_update, tset; proj;
    rewrite ?length_insert; try assumption.
  - apply Forall_insert; [exact Ht|].
    apply stream_counter_range. by apply tget_range.
  - by apply Forall_insert.
Qed.

Lemma block_address_range paddr :
  0 <= paddr < 2 ^ 64 -> 0 <= Z.shiftr paddr 6 < 2 ^ 58.
Proof.
  intros H. rewrite Z.shiftr_div_pow2 by lia.
  change (2 ^ 64) with (2 ^ 6 * 2 ^ 58) in H.
  split; [apply Z.div_pos; lia|].
  apply Z.div_lt_upper_bound; lia.
Qed.

Lemma FindVictimWay_wf fuel set st w st' :
  wf st -> (set < LLC_SETS)%nat ->
  FindVictimWay fuel set st = Some (w, st') -> wf st'.
Proof.
  intros Hwf Hset H.
  pose proof Hwf as [[Hr Hh Ht Hthr] [S1 S2 S3 S4 S5 L1 L2 L3 Hsig Hadr]].
  apply FindVictimWay_inv in H as (_ & [(_ & _ & ->)|(_ & n & _ & -> & _)]);
    try assumption.
  assert (Hrow : Forall (fun r => 0 <= r <= MAX_RRPV) (RRPV st !!! set)).
  { apply Forall_lookup_total_1; [exact Hr | destruct S1; lia]. }
  split; constructor; unfold with_RRPV; proj; try assumption.
  - apply Forall_insert; [exact Hr|]. by apply age_iter_range.
  - apply shape2_insert; [exact S1|].
    rewrite age_iter_length. by apply shape2_row.
Qed.

Lemma evict_penalty_wf set way st :
  wf st -> (set < LLC_SETS)%nat -> (way < LLC_WAYS)%nat ->
  wf (evict_penalty set way st).
Proof.
  intros Hwf Hset Hway.
  pose proof Hwf as [[Hr Hh Ht Hthr] [S1 S2 S3 S4 S5 L1 L2 L3 Hsig Hadr]].
  unfold evict_penalty. destruct (get2 (valid_entries st) set way); [|exact Hwf].
  pose proof (Forall2_get2 _ _ set way Hsig S3 Hset Hway) as Hold.
  simpl in Hold.
  pose proof (tget_range _ _ _ Hh L1 Hold) as Hc. simpl in Hc.
  split; constructor; proj; try assumption.
  - destruct (negb _ && _) eqn:E; [|exact Hh].
    apply andb_true_iff in E as [_ Hpos%Z.ltb_lt].
    apply Forall_insert; [exact Hh|].
    unfold SHCT_MAX in *. rewrite wrap8_small; lia.
  - destruct (negb _ && _); [|exact L1]. unfold tset. by rewrite length_insert.
Qed.

Lemma insertion_rrpv_range c b : 0 <= insertion_rrpv c b <= MAX_RRPV.
Proof.
  unfold insertion_rrpv, MAX_RRPV.
  destruct (SHCT_THRESHOLD <=? c); [lia|]. destruct b; lia.
Qed.

Lemma install_wf set way sig st :
  wf st -> 0 <= sig < SIG_TABLE_SIZE -> wf (install set way sig st).
Proof.
  intros [[Hr Hh Ht Hthr] [S1 S2 S3 S4 S5 L1 L2 L3 Hsig Hadr]] Hs.
  split; constructor; unfold install; proj;
    try apply shape2_set2; try assumption.
  - apply Forall2_set2; [exact Hr | apply insertion_rrpv_range].
  - by apply Forall2_set2.
Qed.

Lemma GetVictimInSet_wf {BLOCK} fuel cpu set (cs : list BLOCK) PC paddr type st w st' :
  wf st -> (set < LLC_SETS)%nat -> 0 <= paddr < 2 ^ 64 ->
  GetVictimInSet fuel cpu set cs PC paddr type st = Some (w, st') -> wf st'.
Proof.
  intros Hwf Hset Hpa H. unfold GetVictimInSet in H.
  pose proof (GetSignature_range PC) as Hsig.
  assert (Hblk : 0 <= Z.shiftr paddr 6 < 2 ^ 64).
  { pose proof (block_address_range paddr Hpa).
    assert (2 ^ 58 < 2 ^ 64) by reflexivity. lia. }
  pose proof (stream_update_wf (GetSignature PC) (Z.shiftr paddr 6) st Hwf Hsig Hblk)
    as H1.
  destruct (FindVictimWay fuel set _) as [[way st2]|] eqn:E; [|discriminate].
  injection H as <- <-.
  pose proof (FindVictimWay_wf _ _ _ _ _ H1 Hset E) as H2.
  apply FindVictimWay_inv in E as (Hway & _);
    [| apply H1 | exact Hset].
  apply install_wf; [|exact Hsig]. by apply evict_penalty_wf.
Qed.

Lemma record_access_wf set way hit st :
  wf st -> (set < LLC_SETS)%nat -> (way < LLC_WAYS)%nat ->
  wf (record_access set way hit st).
Proof.
  intros Hwf Hset Hway.
  pose proof Hwf as [[Hr Hh Ht Hthr] [S1 S2 S3 S4 S5 L1 L2 L3 Hsig Hadr]].
  unfold record_access. destruct (hit =? 0).
  - split; constructor; proj; assumption.
  - pose proof (Forall2_get2 _ _ set way Hsig S3 Hset Hway) as Hold.
    simpl in Hold.
    pose proof (tget_range _ _ _ Hh L1 Hold) as Hc. simpl in Hc.
    split; constructor; proj; try apply shape2_set2; try assumption.
    + apply Forall2_set2; [exact Hr | unfold MAX_RRPV; lia].
    + destruct (Z.ltb_spec (tget (SHCT st) (get2 (sig_mem st) set way)) SHCT_MAX);
        [|exact Hh].
      apply Forall_insert; [exact Hh|].
      unfold SHCT_MAX in *. rewrite wrap8_small; lia.
    + destruct (_ <? SHCT_MAX); [|exact L1]. unfold tset. by rewrite length_insert.
Qed.

Lemma MonitorEpoch_wf st : wf st -> wf (MonitorEpoch st).
Proof.
  intros [[Hr Hh Ht Hthr] [S1 S2 S3 S4 S5 L1 L2 L3 Hsig Hadr]].
  split; constructor; unfold MonitorEpoch; proj; try assumption.
  - destruct (phase_change st); [|exact Ht].
    rewrite fill_table_replicate by exact L2.
    apply Forall_replicate. unfold STCT_INIT, STCT_MAX. lia.
  - by apply adapt_threshold_range.
  - destruct (phase_change st); [|exact L2].
    rewrite fill_table_replicate by exact L2. apply length_replicate.
  - destruct (phase_change st); [|exact L3].
    rewrite fill_table_replicate by exact L3. apply length_replicate.
  - destruct (phase_change st); [|exact Hadr].
    rewrite fill_table_replicate by exact L3.
    apply Forall_replicate. unfold INVALID_BLK. lia.
Qed.

Lemma UpdateReplacementState_wf cpu set way paddr PC victim_addr type hit st :
  wf st -> (set < LLC_SETS)%nat -> (way < LLC_WAYS)%nat ->
  wf (UpdateReplacementState cpu set way paddr PC victim_addr type hit st).
Proof.
  intros Hwf Hset Hway. unfold UpdateReplacementState.
  pose proof (record_access_wf set way hit st Hwf Hset Hway) as H1.
  destruct (EPOCH_LENGTH <=? _); [by apply MonitorEpoch_wf | exact H1].
Qed.

Lemma step_wf st st' : wf st -> step st st' -> wf st'.
Proof.
  intros Hwf Hstep. destruct Hstep.
  - by eapply GetVictimInSet_wf.
  - by apply UpdateReplacementState_wf.
Qed.

Lemma reachable_wf st : reachable st -> wf st.
Proof.
  induction 1 as [|st st' _ IH Hstep].
  - apply InitReplacementState_wf.
  - by eapply step_wf.
Qed.

(** ** Claims *)

(** C2. Every state reachable from [InitReplacementState] through calls of
    [GetVictimInSet] and [UpdateReplacementState] keeps every RRPV value,
    every SHCT entry and every STCT entry in [[0,3]] and the dynamic
    streaming threshold in [[1,3]]. *)
Theorem reachable_ranges st :
  reachable st ->
  Forall (Forall (fun r => 0 <= r <= 3)) (RRPV st)
  /\ Forall (fun c => 0 <= c <= 3) (SHCT st)
  /\ Forall (fun c => 0 <= c <= 3) (STCT st)
  /\ 1 <= g_STCT_THRESHOLD st <= 3.
Proof.
  intros H. apply reachable_wf in H as [[Hr Hh Ht Hthr] _].
  repeat split; try assumption; apply Hthr.
Qed.

Lemma reachable_ranges_witness :
  Forall (fun c => 0 <= c <= 3)
         (SHCT (UpdateReplacementState 0 5 3 0 0 0 0 1 InitReplacementState)).
Proof.
  refine (proj1 (proj2 (reachable_ranges _ _))).
  eapply reachable_step; [apply reachable_init|].
  apply step_update; [unfold LLC_SETS, NUM_CORE | unfold LLC_WAYS |]; lia.
Defined.


(** X20. When the test of line 75 fires, on the binary64 miss rates the
    source computes, [MonitorEpoch] puts every STCT entry back at
    [STCT_INIT] and every [last_addr] entry at [INVALID_BLK], leaves the SHCT
    table untouched and records the epoch's miss rate. *)
Theorem phase_reset_frame st :
  length (STCT st) = Z.to_nat SIG_TABLE_SIZE ->
  length (last_addr st) = Z.to_nat SIG_TABLE_SIZE ->
  let cur_mr :=
    if epoch_accesses st =? 0 then dzero
    else ddiv (double_of_u64 (epoch_misses st)) (double_of_u64 (epoch_accesses st)) in
  dge (dfabs (dsub cur_mr (prev_miss_rate st))) PHASE_CHANGE_DELTA = true ->
  (forall sig, 0 <= sig < SIG_TABLE_SIZE ->
     tget (STCT (MonitorEpoch st)) sig = STCT_INIT
     /\ tget (last_addr (MonitorEpoch st)) sig = INVALID_BLK)
  /\ Forall (fun c => c = STCT_INIT) (STCT (MonitorEpoch st))
  /\ Forall (fun a => a = INVALID_BLK) (last_addr (MonitorEpoch st))
  /\ SHCT (MonitorEpoch st) = SHCT st
  /\ prev_miss_rate (MonitorEpoch st) = cur_mr.
Proof.
  intros Hs Hl cur_mr Hph. unfold MonitorEpoch. proj.
  change (phase_change st = true) in Hph. rewrite Hph.
  rewrite !fill_table_replicate by assumption.
  repeat split; try (by apply Forall_replicate); by apply tget_replicate.
Qed.

(** C4. [MonitorEpoch] moves the streaming threshold by the stream hit ratio
    of the epoch ([stream_hits / stream_inserts], [0] without inserts): below
    [STREAM_LOW_RATIO] it goes up by one, capped at [3]; above
    [STREAM_HIGH_RATIO] it goes down by one, floored at [1]; otherwise it
    stays. *)
Theorem threshold_adaptation st :
  1 <= g_STCT_THRESHOLD st <= STCT_MAX ->
  let ratio :=
    if stream_inserts st =? 0 then dzero
    else ddiv (double_of_u64 (stream_hits st)) (double_of_u64 (stream_inserts st)) in
  let thr := g_STCT_THRESHOLD st in
  let thr' := g_STCT_THRESHOLD (MonitorEpoch st) in
  (dlt ratio STREAM_LOW_RATIO = true -> thr' = Z.min (thr + 1) 3)
  /\ (dlt STREAM_HIGH_RATIO ratio = true -> thr' = Z.max (thr - 1) 1)
  /\ (dlt ratio STREAM_LOW_RATIO = false -> dlt STREAM_HIGH_RATIO ratio = false ->
      thr' = thr).
Proof.
  intros Hthr ratio thr thr'. subst thr'. unfold MonitorEpoch. proj.
  fold (stream_ratio st). change (stream_ratio st) with ratio. fold thr.
  rewrite adapt_threshold_spec by exact Hthr. fold thr.
  repeat split.
  - by intros ->.
  - intros Hhigh. destruct (dlt ratio STREAM_LOW_RATIO) eqn:Hlow.
    + rewrite (ratio_low_not_high _ Hlow) in Hhigh. discriminate.
    + by rewrite Hhigh.
  - by intros -> ->.
Qed.

Lemma phase_reset_frame_witness :
  let st := stream_update 5 65
              (stream_update 5 64
                 (epoch_end 100000 46000 0 0
                    (ddiv (double_of_u64 40000) (double_of_u64 100000)) 2)) in
  (tget (STCT st) 5 = 2 /\ tget (last_addr st) 5 = 65)
  /\ tget (STCT (MonitorEpoch st)) 5 = STCT_INIT
  /\ tget (last_addr (MonitorEpoch st)) 5 = INVALID_BLK.
Proof.
  cbv zeta. split; [vm_compute; split; reflexivity|].
  refine (proj1 (phase_reset_frame _ _ _ _) 5 _).
  - vm_compute. reflexivity.
  - vm_compute. reflexivity.
  - vm_compute. reflexivity.
  - unfold SIG_TABLE_SIZE. lia.
Defined.

Lemma threshold_adaptation_witness :
  g_STCT_THRESHOLD (MonitorEpoch (epoch_end 100000 50000 100 5 dzero 2)) = 3.
Proof.
  refine (proj1 (threshold_adaptation (epoch_end 100000 50000 100 5 dzero 2) _) _).
  - unfold epoch_end, STCT_MAX. proj. lia.
  - vm_compute. reflexivity.
Defined.

Lemma full_state_wf r sig streaming :
  0 <= r <= MAX_RRPV -> 0 <= sig < SIG_TABLE_SIZE -> wf (full_state r sig streaming).
Proof.
  intros Hr Hsig. pose proof InitReplacementState_wf as [[_ Hh Ht Hthr] Hshape].
  destruct Hshape.
  split; constructor; unfold full_state; proj;
    try apply shape2_replicate; try assumption;
    by repeat apply Forall_replicate.
Qed.

(** C7. On a row whose [rrpv] values are in [[0,3]], [FindVictimWay]
    returns within [MAX_RRPV + 1] iterations of its loop, after at most
    [MAX_RRPV] aging passes, with a way below [LLC_WAYS]. With an invalid way
    in the set it returns that way without aging. On a full set it ages
    until some way reaches [MAX_RRPV]: no way was there in any earlier pass,
    and the way returned is the first one there in the resulting state. One
    aging pass adds one to every [rrpv] of the set below [MAX_RRPV] and
    leaves the others. *)
Theorem FindVictimWay_terminates fuel set st :
  shape2 (RRPV st) -> (set < LLC_SETS)%nat ->
  Forall (Forall (fun r => 0 <= r <= MAX_RRPV)) (RRPV st) ->
  (Z.to_nat (MAX_RRPV + 1) <= fuel)%nat ->
  (exists w st' n,
      FindVictimWay fuel set st = Some (w, st')
      /\ (0 <= w < LLC_WAYS)%nat
      /\ (n <= Z.to_nat MAX_RRPV)%nat
      /\ RRPV st' = Nat.iter n (age_set set) (RRPV st)
      /\ (forall m w', (m < n)%nat -> (w' < LLC_WAYS)%nat ->
            get2 (Nat.iter m (age_set set) (RRPV st)) set w' <> MAX_RRPV)
      /\ ((get2 (valid_entries st) set w = false /\ n = 0%nat)
          \/ ((forall w', (w' < LLC_WAYS)%nat -> get2 (valid_entries st) set w' = true)
              /\ get2 (RRPV st') set w = MAX_RRPV
              /\ (forall w', (w' < w)%nat -> get2 (RRPV st') set w' <> MAX_RRPV))))
  /\ (forall w, (w < LLC_WAYS)%nat ->
        get2 (age_set set (RRPV st)) set w
        = if get2 (RRPV st) set w <? MAX_RRPV
          then get2 (RRPV st) set w + 1
          else get2 (RRPV st) set w).
Proof.
  intros Hsh Hset Hr Hfuel.
  assert (Hlen : (set < length (RRPV st))%nat) by (destruct Hsh; lia).
  assert (Hrow : length (RRPV st !!! set) = LLC_WAYS) by (by apply shape2_row).
  split.
  - destruct (first_way (fun w => negb (get2 (valid_entries st) set w)) 0 LLC_WAYS)
      as [w0|] eqn:E.
    + exists w0, st, 0%nat. pose proof E as (Hw0 & Hp & _)%first_way_Some.
      split; [unfold FindVictimWay; by rewrite E|].
      repeat split; try lia; try reflexivity.
      left. split; [by apply negb_true_iff in Hp | reflexivity].
    + assert (Hval : forall w', (w' < LLC_WAYS)%nat ->
                                get2 (valid_entries st) set w' = true).
      { intros w' Hw'. pose proof (first_way_None _ _ E w' Hw') as Hn.
        by apply negb_false_iff in Hn. }
      assert (Hsome : exists w0, (w0 < LLC_WAYS)%nat
                                 /\ 0 <= (RRPV st !!! set) !!! w0 <= MAX_RRPV).
      { exists 0%nat. split; [unfold LLC_WAYS; lia|].
        exact (Forall2_get2 _ _ set 0%nat Hr Hsh Hset ltac:(unfold LLC_WAYS; lia)). }
      destruct (rrip_row_terminates (Z.to_nat MAX_RRPV) fuel (RRPV st !!! set) Hrow)
        as (w & n0 & _ & Hrun & _).
      { unfold MAX_RRPV in *. lia. }
      { destruct Hsome as (w0 & Hw0 & Hr0). exists w0. split; [exact Hw0|]. lia. }
      destruct (rrip_row_passes _ _ _ _ Hrow Hsome Hrun)
        as (n & Hn & Heq & Hbefore & Hw & Hmax & Hlow).
      exists w. eexists. exists n. split.
      { rewrite FindVictimWay_all_valid by assumption. by rewrite Hrun. }
      unfold with_RRPV. proj. rewrite Heq in *.
      rewrite <- (age_set_iter set (RRPV st) n Hlen Hrow).
      split; [lia|]. split; [exact Hn|]. split; [reflexivity|]. split.
      * intros m w' Hm Hw'. rewrite age_set_iter by assumption.
        unfold get2. rewrite list_lookup_total_insert_eq by exact Hlen.
        by apply Hbefore.
      * right. split; [exact Hval|].
        rewrite age_set_iter by assumption. unfold get2.
        rewrite list_lookup_total_insert_eq by exact Hlen.
        split; [exact Hmax | exact Hlow].
  - intros w Hw. rewrite age_set_row by assumption.
    unfold get2. rewrite list_lookup_total_insert_eq by exact Hlen.
    rewrite age_row_lookup by (by rewrite Hrow).
    pose proof (Forall2_get2 _ _ set w Hr Hsh Hset Hw) as Hrw.
    unfold get2 in Hrw. simpl in Hrw. unfold age1.
    destruct (Z.ltb_spec ((RRPV st !!! set) !!! w) MAX_RRPV); [|reflexivity].
    apply wrap8_small. unfold MAX_RRPV in *. lia.
Qed.

Lemma FindVictimWay_terminates_witness :
  exists w st' n,
    FindVictimWay 4 7 (full_state 0 0 false) = Some (w, st')
    /\ (0 <= w < LLC_WAYS)%nat
    /\ (n <= Z.to_nat MAX_RRPV)%nat
    /\ RRPV st' = Nat.iter n (age_set 7) (RRPV (full_state 0 0 false))
    /\ (forall m w', (m < n)%nat -> (w' < LLC_WAYS)%nat ->
          get2 (Nat.iter m (age_set 7) (RRPV (full_state 0 0 false))) 7 w' <> MAX_RRPV)
    /\ ((get2 (valid_entries (full_state 0 0 false)) 7 w = false /\ n = 0%nat)
        \/ ((forall w', (w' < LLC_WAYS)%nat ->
               get2 (valid_entries (full_state 0 0 false)) 7 w' = true)
            /\ get2 (RRPV st') 7 w = MAX_RRPV
            /\ (forall w', (w' < w)%nat -> get2 (RRPV st') 7 w' <> MAX_RRPV))).
Proof.
  refine (proj1 (FindVictimWay_terminates 4 7 (full_state 0 0 false) _ _ _ _)).
  - apply shape2_replicate.
  - unfold LLC_SETS, NUM_CORE. lia.
  - apply (full_state_wf 0 0 false); unfold MAX_RRPV, SIG_TABLE_SIZE; lia.
  - vm_compute. lia.
Defined.

(** C10. [GetVictimInSet] does not depend on [current_set]: with the same
    policy state and the same other arguments, any two contents (of any
    type) give the same way and the same resulting state. *)
Theorem GetVictimInSet_ignores_current_set
    (BLOCK1 BLOCK2 : Type) (cs1 : list BLOCK1) (cs2 : list BLOCK2)
    fuel cpu set PC paddr type st :
  GetVictimInSet fuel cpu set cs1 PC paddr type st
  = GetVictimInSet fuel cpu set cs2 PC paddr type st.
Proof. reflexivity. Qed.

(** ** The miss path, phase by phase *)

Lemma evict_penalty_RRPV set way st :
  RRPV (evict_penalty set way st) = RRPV st.
Proof. unfold evict_penalty. by destruct (get2 (valid_entries st) set way). Qed.

Lemma evict_penalty_valid set way st :
  valid_entries (evict_penalty set way st) = valid_entries st.
Proof. unfold evict_penalty. by destruct (get2 (valid_entries st) set way). Qed.

Lemma evict_penalty_sig_mem set way st :
  sig_mem (evict_penalty set way st) = sig_mem st.
Proof. unfold evict_penalty. by destruct (get2 (valid_entries st) set way). Qed.

Lemma evict_penalty_has_hit set way st :
  has_hit (evict_penalty set way st) = has_hit st.
Proof. unfold evict_penalty. by destruct (get2 (valid_entries st) set way). Qed.

Lemma evict_penalty_is_streaming set way st :
  is_streaming (evict_penalty set way st) = is_streaming st.
Proof. unfold evict_penalty. by destruct (get2 (valid_entries st) set way). Qed.

Lemma evict_penalty_STCT set way st :
  STCT (evict_penalty set way st) = STCT st.
Proof. unfold evict_penalty. by destruct (get2 (valid_entries st) set way). Qed.

Lemma evict_penalty_last_addr set way st :
  last_addr (evict_penalty set way st) = last_addr st.
Proof. unfold evict_penalty. by destruct (get2 (valid_entries st) set way). Qed.

Lemma evict_penalty_threshold set way st :
  g_STCT_THRESHOLD (evict_penalty set way st) = g_STCT_THRESHOLD st.
Proof. unfold evict_penalty. by destruct (get2 (valid_entries st) set way). Qed.

Lemma evict_penalty_epoch_accesses set way st :
  epoch_accesses (evict_penalty set way st) = epoch_accesses st.
Proof. unfold evict_penalty. by destruct (get2 (valid_entries st) set way). Qed.

Create Rewrite HintDb evict.
#[local] Hint Rewrite evict_penalty_RRPV evict_penalty_valid evict_penalty_sig_mem
  evict_penalty_has_hit evict_penalty_is_streaming evict_penalty_STCT
  evict_penalty_last_addr evict_penalty_threshold evict_penalty_epoch_accesses
  : evict.

Lemma evict_penalty_invalid set way st :
  get2 (valid_entries st) set way = false -> evict_penalty set way st = st.
Proof. intros H. unfold evict_penalty. by rewrite H. Qed.

Lemma block_address_u64 paddr :
  0 <= paddr < 2 ^ 64 -> 0 <= Z.shiftr paddr 6 < 2 ^ 64.
Proof.
  intros Hpa. pose proof (block_address_range paddr Hpa).
  assert (2 ^ 58 < 2 ^ 64) by reflexivity. lia.
Qed.

(** In a well-formed state the call returns, and its result is the three
    phases after the stream update chained on the way the search found;
    the search changed the RRPV array at most. *)
Lemma GetVictimInSet_run {BLOCK} fuel cpu set (cs : list BLOCK) PC paddr type st :
  wf st -> (set < LLC_SETS)%nat -> 0 <= paddr < 2 ^ 64 ->
  (Z.to_nat MAX_RRPV < fuel)%nat ->
  exists w rr,
    (w < LLC_WAYS)%nat
    /\ wf (with_RRPV rr (stream_update (GetSignature PC) (Z.shiftr paddr 6) st))
    /\ FindVictimWay fuel set (stream_update (GetSignature PC) (Z.shiftr paddr 6) st)
       = Some (w, with_RRPV rr (stream_update (GetSignature PC) (Z.shiftr paddr 6) st))
    /\ GetVictimInSet fuel cpu set cs PC paddr type st
       = Some (w, install set w (GetSignature PC)
                    (evict_penalty set w
                       (with_RRPV rr (stream_update (GetSignature PC) (Z.shiftr paddr 6) st)))).
Proof.
  intros Hwf Hset Hpa Hfuel. unfold GetVictimInSet.
  pose proof (stream_update_wf _ _ st Hwf (GetSignature_range PC)
                (block_address_u64 paddr Hpa)) as Hwf1.
  pose proof Hwf1 as [[Hr _ _ _] [S1 _ _ _ _ _ _ _ _ _]].
  destruct (FindVictimWay_total fuel set _ S1 Hset Hr Hfuel) as (w & n & _ & Hw & E).
  rewrite E. exists w. eexists. split; [exact Hw|]. split; [|split; reflexivity].
  by eapply FindVictimWay_wf.
Qed.

(** C5. A call of [GetVictimInSet] for signature [sig] and block address [a]
    leaves [STCT[sig]] alone when [last_addr[sig]] is the sentinel, adds one
    (saturating at [3]) when [a] is one above or one below the stored
    address, subtracts one (floored at [0]) otherwise, and always stores [a]
    in [last_addr[sig]]. *)
Theorem stream_detector_update {BLOCK} fuel cpu set (cs : list BLOCK) PC paddr type st :
  wf st -> (set < LLC_SETS)%nat -> 0 <= paddr < 2 ^ 64 ->
  (Z.to_nat MAX_RRPV < fuel)%nat ->
  let sig := GetSignature PC in
  let a := Z.shiftr paddr 6 in
  let last := tget (last_addr st) sig in
  let c := tget (STCT st) sig in
  exists w st',
    GetVictimInSet fuel cpu set cs PC paddr type st = Some (w, st')
    /\ tget (last_addr st') sig = a
    /\ tget (STCT st') sig
       = if last =? INVALID_BLK then c
         else if (a - last =? 1) || (a - last =? -1) then Z.min (c + 1) 3
         else Z.max (c - 1) 0.
Proof.
  intros Hwf Hset Hpa Hfuel sig a last c.
  destruct (GetVictimInSet_run fuel cpu set cs PC paddr type st Hwf Hset Hpa Hfuel)
    as (w & rr & Hw & _ & _ & Hrun).
  exists w. eexists. split; [exact Hrun|].
  pose proof (GetSignature_range PC) as Hsig.
  destruct Hwf as [[_ _ Ht _] [_ _ _ _ _ _ L2 L3 _ Hadr]].
  pose proof (tget_range _ _ _ Ht L2 Hsig) as Hc. simpl in Hc.
  pose proof (tget_range _ _ _ Hadr L3 Hsig) as Hlast. simpl in Hlast.
  subst sig a last c.
  unfold install. proj. autorewrite with evict.
  unfold with_RRPV, stream_update. proj.
  rewrite !tget_tset_eq by assumption. split; [reflexivity|].
  unfold stream_counter, STCT_MAX in *.
  destruct (Z.eqb_spec (tget (last_addr st) (GetSignature PC)) INVALID_BLK)
    as [|Hne]; [reflexivity|].
  rewrite sint64_delta by (try apply block_address_range; assumption).
  destruct (_ || _).
  - destruct (Z.ltb_spec (tget (STCT st) (GetSignature PC)) 3);
      [rewrite wrap8_small|]; lia.
  - destruct (Z.ltb_spec 0 (tget (STCT st) (GetSignature PC)));
      [rewrite wrap8_small|]; lia.
Qed.

Lemma stream_detector_update_witness :
  exists w st',
    GetVictimInSet (BLOCK := unit) 4 0 3 [] 0x400123 0x1040 0 InitReplacementState
    = Some (w, st')
    /\ tget (last_addr st') (GetSignature 0x400123) = Z.shiftr 0x1040 6
    /\ tget (STCT st') (GetSignature 0x400123)
       = if tget (last_addr InitReplacementState) (GetSignature 0x400123) =? INVALID_BLK
         then tget (STCT InitReplacementState) (GetSignature 0x400123)
         else if (Z.shiftr 0x1040 6
                  - tget (last_addr InitReplacementState) (GetSignature 0x400123) =? 1)
                 || (Z.shiftr 0x1040 6
                     - tget (last_addr InitReplacementState) (GetSignature 0x400123) =? -1)
              then Z.min (tget (STCT InitReplacementState) (GetSignature 0x400123) + 1) 3
              else Z.max (tget (STCT InitReplacementState) (GetSignature 0x400123) - 1) 0.
Proof.
  refine (stream_detector_update 4 0 3 [] 0x400123 0x1040 0 InitReplacementState _ _ _ _).
  - apply InitReplacementState_wf.
  - unfold LLC_SETS, NUM_CORE. lia.
  - lia.
  - vm_compute. lia.
Defined.

Lemma install_keeps_tables set way sig st :
  SHCT (install set way sig st) = SHCT st
  /\ STCT (install set way sig st) = STCT st
  /\ g_STCT_THRESHOLD (install set way sig st) = g_STCT_THRESHOLD st.
Proof. repeat split. Qed.

(** C6. The line [GetVictimInSet] installs gets [rrpv = 0] when the SHCT
    entry of the incoming signature, as it stands at installation, meets
    [SHCT_THRESHOLD]; otherwise [1] when its STCT entry, after the stream
    update of this call, meets the dynamic threshold; otherwise [MAX_RRPV].
    The installation itself leaves both tables and the threshold as they
    are ([install_keeps_tables]), so the entries it read are those of the
    resulting state. *)
Theorem insertion_tiers {BLOCK} fuel cpu set (cs : list BLOCK) PC paddr type st :
  wf st -> (set < LLC_SETS)%nat -> 0 <= paddr < 2 ^ 64 ->
  (Z.to_nat MAX_RRPV < fuel)%nat ->
  let sig := GetSignature PC in
  exists w st',
    GetVictimInSet fuel cpu set cs PC paddr type st = Some (w, st')
    /\ get2 (RRPV st') set w
       = (if SHCT_THRESHOLD <=? tget (SHCT st') sig then 0
          else if g_STCT_THRESHOLD st' <=? tget (STCT st') sig then 1
          else MAX_RRPV)
    /\ g_STCT_THRESHOLD st' = g_STCT_THRESHOLD st
    /\ tget (STCT st') sig
       = stream_counter (tget (last_addr st) sig) (Z.shiftr paddr 6) (tget (STCT st) sig).
Proof.
  intros Hwf Hset Hpa Hfuel sig.
  destruct (GetVictimInSet_run fuel cpu set cs PC paddr type st Hwf Hset Hpa Hfuel)
    as (w & rr & Hw & Hwf2 & _ & Hrun).
  exists w. eexists. split; [exact Hrun|].
  pose proof (GetSignature_range PC) as Hsig.
  pose proof (evict_penalty_wf set w _ Hwf2 Hset Hw) as [_ [S1 _ _ _ _ _ _ _ _ _]].
  destruct Hwf as [_ [_ _ _ _ _ _ L2 _ _ _]].
  subst sig. unfold install at 1. proj.
  rewrite get2_set2_eq by assumption.
  unfold install. proj. autorewrite with evict.
  unfold with_RRPV, stream_update. proj.
  rewrite !tget_tset_eq by assumption.
  repeat split.
Qed.

Lemma insertion_tiers_witness :
  exists w st',
    GetVictimInSet (BLOCK := unit) 4 0 9 [] 0x7f001 0x2000 0 (full_state 2 1 false)
    = Some (w, st')
    /\ get2 (RRPV st') 9 w
       = (if SHCT_THRESHOLD <=? tget (SHCT st') (GetSignature 0x7f001) then 0
          else if g_STCT_THRESHOLD st' <=? tget (STCT st') (GetSignature 0x7f001) then 1
          else MAX_RRPV)
    /\ g_STCT_THRESHOLD st' = g_STCT_THRESHOLD (full_state 2 1 false)
    /\ tget (STCT st') (GetSignature 0x7f001)
       = stream_counter (tget (last_addr (full_state 2 1 false)) (GetSignature 0x7f001))
                        (Z.shiftr 0x2000 6)
                        (tget (STCT (full_state 2 1 false)) (GetSignature 0x7f001)).
Proof.
  refine (insertion_tiers 4 0 9 [] 0x7f001 0x2000 0 (full_state 2 1 false) _ _ _ _).
  - apply full_state_wf; unfold MAX_RRPV, SIG_TABLE_SIZE; lia.
  - unfold LLC_SETS, NUM_CORE. lia.
  - lia.
  - vm_compute. lia.
Defined.

(** C8. When some way of the set is invalid, [GetVictimInSet] returns the
    invalid way of lowest index, whatever the fuel, and writes the five
    per-line arrays at that way of that set only: no [rrpv] is aged. *)
Theorem invalid_way_first {BLOCK} fuel cpu set (cs : list BLOCK) PC paddr type st w0 :
  (w0 < LLC_WAYS)%nat -> get2 (valid_entries st) set w0 = false ->
  exists w st',
    GetVictimInSet fuel cpu set cs PC paddr type st = Some (w, st')
    /\ (w <= w0)%nat
    /\ get2 (valid_entries st) set w = false
    /\ (forall w', (w' < w)%nat -> get2 (valid_entries st) set w' = true)
    /\ (forall s' w', s' <> set \/ w' <> w ->
          get2 (RRPV st') s' w' = get2 (RRPV st) s' w'
          /\ get2 (valid_entries st') s' w' = get2 (valid_entries st) s' w'
          /\ get2 (sig_mem st') s' w' = get2 (sig_mem st) s' w'
          /\ get2 (has_hit st') s' w' = get2 (has_hit st) s' w'
          /\ get2 (is_streaming st') s' w' = get2 (is_streaming st) s' w').
Proof.
  intros Hw0 Hinv.
  set (st1 := stream_update (GetSignature PC) (Z.shiftr paddr 6) st).
  assert (Hv1 : valid_entries st1 = valid_entries st) by reflexivity.
  destruct (first_way (fun w => negb (get2 (valid_entries st1) set w)) 0 LLC_WAYS)
    as [w|] eqn:E.
  2:{ pose proof (first_way_None _ _ E w0 Hw0) as Hn. cbn beta in Hn.
      rewrite Hv1, Hinv in Hn. discriminate. }
  pose proof E as (Hw & Hp & Hlow)%first_way_Some.
  apply negb_true_iff in Hp.
  exists w, (install set w (GetSignature PC) st1). split.
  { unfold GetVictimInSet, FindVictimWay. fold st1. rewrite E.
    by rewrite evict_penalty_invalid. }
  rewrite Hv1 in Hp. unfold st1, stream_update, install. proj.
  repeat split.
  - destruct (Nat.le_gt_cases w w0) as [|Hgt]; [assumption|].
    specialize (Hlow w0 Hgt). cbn beta in Hlow.
    rewrite Hv1, Hinv in Hlow. discriminate.
  - exact Hp.
  - intros w' Hw'. specialize (Hlow w' Hw'). cbn beta in Hlow.
    rewrite Hv1 in Hlow. by apply negb_false_iff in Hlow.
  - by apply get2_set2_other.
  - by apply get2_set2_other.
  - by apply get2_set2_other.
  - by apply get2_set2_other.
  - by apply get2_set2_other.
Qed.

Lemma invalid_way_first_witness :
  exists w st',
    GetVictimInSet (BLOCK := unit) 0 0 11 [] 0x1234 0x40 0 InitReplacementState
    = Some (w, st')
    /\ (w <= 6)%nat
    /\ get2 (valid_entries InitReplacementState) 11 w = false
    /\ (forall w', (w' < w)%nat -> get2 (valid_entries InitReplacementState) 11 w' = true)
    /\ (forall s' w', s' <> 11%nat \/ w' <> w ->
          get2 (RRPV st') s' w' = get2 (RRPV InitReplacementState) s' w'
          /\ get2 (valid_entries st') s' w' = get2 (valid_entries InitReplacementState) s' w'
          /\ get2 (sig_mem st') s' w' = get2 (sig_mem InitReplacementState) s' w'
          /\ get2 (has_hit st') s' w' = get2 (has_hit InitReplacementState) s' w'
          /\ get2 (is_streaming st') s' w' = get2 (is_streaming InitReplacementState) s' w').
Proof.
  refine (invalid_way_first 0 0 11 [] 0x1234 0x40 0 InitReplacementState 6 _ _).
  - unfold LLC_WAYS. lia.
  - vm_compute. reflexivity.
Defined.

(** C9. When the way [GetVictimInSet] returns held a valid line that was
    never hit, the SHCT entry of the signature stored with that line goes
    down by one, floored at [0], and [stream_misses] goes up by one if the
    line was marked streaming; when the line had been hit, neither
    changes. *)
Theorem eviction_penalty {BLOCK} fuel cpu set (cs : list BLOCK) PC paddr type st :
  wf st -> (set < LLC_SETS)%nat -> 0 <= paddr < 2 ^ 64 ->
  (Z.to_nat MAX_RRPV < fuel)%nat ->
  exists w st',
    GetVictimInSet fuel cpu set cs PC paddr type st = Some (w, st')
    /\ (get2 (valid_entries st) set w = true ->
        get2 (has_hit st) set w = false ->
        SHCT st' = tset (SHCT st) (get2 (sig_mem st) set w)
                        (Z.max (tget (SHCT st) (get2 (sig_mem st) set w) - 1) 0)
        /\ stream_misses st'
           = if get2 (is_streaming st) set w
             then wrap64 (stream_misses st + 1) else stream_misses st)
    /\ (get2 (valid_entries st) set w = true ->
        get2 (has_hit st) set w = true ->
        SHCT st' = SHCT st /\ stream_misses st' = stream_misses st).
Proof.
  intros Hwf Hset Hpa Hfuel.
  destruct (GetVictimInSet_run fuel cpu set cs PC paddr type st Hwf Hset Hpa Hfuel)
    as (w & rr & Hw & _ & _ & Hrun).
  exists w. eexists. split; [exact Hrun|].
  destruct Hwf as [[_ Hh _ _] [_ _ S3 _ _ L1 _ _ Hsig _]].
  pose proof (Forall2_get2 _ _ set w Hsig S3 Hset Hw) as Hold. simpl in Hold.
  pose proof (tget_range _ _ _ Hh L1 Hold) as Hc. simpl in Hc.
  unfold install. proj. unfold evict_penalty, with_RRPV, stream_update. proj.
  split; intros Hval Hhit; rewrite Hval; proj; rewrite Hhit; simpl.
  - split; [|by rewrite andb_true_r].
    unfold SHCT_MAX in Hc.
    destruct (Z.ltb_spec 0 (tget (SHCT st) (get2 (sig_mem st) set w))).
    + rewrite wrap8_small by lia. f_equal. lia.
    + replace (Z.max _ 0) with (tget (SHCT st) (get2 (sig_mem st) set w)) by lia.
      unfold tset, tget. symmetry. apply list_insert_id.
      apply list_lookup_lookup_total_lt. lia.
  - split; [reflexivity | by rewrite andb_false_r].
Qed.

Lemma eviction_penalty_witness :
  exists w st',
    GetVictimInSet (BLOCK := unit) 4 0 2 [] 0x99 0x80 0 (full_state 0 7 true)
    = Some (w, st')
    /\ (get2 (valid_entries (full_state 0 7 true)) 2 w = true ->
        get2 (has_hit (full_state 0 7 true)) 2 w = false ->
        SHCT st' = tset (SHCT (full_state 0 7 true))
                        (get2 (sig_mem (full_state 0 7 true)) 2 w)
                        (Z.max (tget (SHCT (full_state 0 7 true))
                                     (get2 (sig_mem (full_state 0 7 true)) 2 w) - 1) 0)
        /\ stream_misses st'
           = if get2 (is_streaming (full_state 0 7 true)) 2 w
             then wrap64 (stream_misses (full_state 0 7 true) + 1)
             else stream_misses (full_state 0 7 true))
    /\ (get2 (valid_entries (full_state 0 7 true)) 2 w = true ->
        get2 (has_hit (full_state 0 7 true)) 2 w = true ->
        SHCT st' = SHCT (full_state 0 7 true)
        /\ stream_misses st' = stream_misses (full_state 0 7 true)).
Proof.
  refine (eviction_penalty 4 0 2 [] 0x99 0x80 0 (full_state 0 7 true) _ _ _ _).
  - apply full_state_wf; unfold MAX_RRPV, SIG_TABLE_SIZE; lia.
  - unfold LLC_SETS, NUM_CORE. lia.
  - lia.
  - vm_compute. lia.
Defined.

(** ** Filling an empty set *)

Lemma fill_inv_init set : (set < LLC_SETS)%nat -> fill_inv set 0 InitReplacementState.
Proof.
  intros Hset. unfold fill_inv, InitReplacementState. proj.
  repeat split; try apply shape2_replicate; try apply length_replicate.
  - intros w Hw. unfold get2. by rewrite !lookup_total_replicate_2.
  - intros w Hw. lia.
Qed.

Lemma insertion_rrpv_init sig b :
  0 <= sig < SIG_TABLE_SIZE ->
  insertion_rrpv (tget (SHCT InitReplacementState) sig) b = 0.
Proof.
  intros Hsig. unfold InitReplacementState. proj. by rewrite tget_replicate.
Qed.

Lemma record_access_miss set way st :
  RRPV (record_access set way 0 st) = RRPV st
  /\ valid_entries (record_access set way 0 st) = valid_entries st
  /\ SHCT (record_access set way 0 st) = SHCT st
  /\ epoch_accesses (record_access set way 0 st) = wrap64 (epoch_accesses st + 1).
Proof. repeat split. Qed.

(** A miss on a set with an invalid way takes the first one and installs
    the line with [rrpv = 0]: no SHCT entry has left [SHCT_INIT]. *)
Lemma miss_fill {BLOCK} fuel set (cs : list BLOCK) PC paddr k st :
  (set < LLC_SETS)%nat -> (k < LLC_WAYS)%nat -> fill_inv set k st ->
  exists st',
    miss fuel set cs PC paddr st = Some (k, st')
    /\ get2 (RRPV st') set k = 0
    /\ fill_inv set (S k) st'.
Proof.
  intros Hset Hk (S1 & S2 & Hval & Hrr & Hshct & Hep).
  set (sig := GetSignature PC).
  set (st1 := stream_update sig (Z.shiftr paddr 6) st).
  assert (Hfind : FindVictimWay fuel set st1 = Some (k, st1)).
  { apply FindVictimWay_invalid; [exact Hk | |].
    - unfold st1, stream_update. proj. rewrite Hval by exact Hk.
      apply bool_decide_eq_false. lia.
    - intros w' Hw'. unfold st1, stream_update. proj. rewrite Hval by lia.
      by apply bool_decide_eq_true. }
  assert (Hinv : get2 (valid_entries st1) set k = false).
  { unfold st1, stream_update. proj. rewrite Hval by exact Hk.
    apply bool_decide_eq_false. lia. }
  set (st2 := install set k sig st1).
  assert (Hget : GetVictimInSet fuel 0 set cs PC paddr 0 st = Some (k, st2)).
  { unfold GetVictimInSet. fold sig st1. rewrite Hfind.
    by rewrite evict_penalty_invalid. }
  assert (Hrrpv : RRPV st2 = set2 (RRPV st) set k 0).
  { unfold st2, install, st1, stream_update. proj. rewrite Hshct.
    by rewrite insertion_rrpv_init by apply GetSignature_range. }
  assert (Hvalid : valid_entries st2 = set2 (valid_entries st) set k true) by reflexivity.
  assert (Hshct2 : SHCT st2 = SHCT InitReplacementState) by exact Hshct.
  assert (Hep2 : epoch_accesses st2 = Z.of_nat k) by exact Hep.
  destruct (record_access_miss set k st2) as (Hr3 & Hv3 & Hs3 & He3).
  assert (He3' : epoch_accesses (record_access set k 0 st2) = Z.of_nat k + 1).
  { rewrite He3, Hep2. unfold wrap64. apply Z.mod_small.
    unfold LLC_WAYS in Hk. lia. }
  assert (Hupd : UpdateReplacementState 0 set k paddr PC 0 0 0 st2
                 = record_access set k 0 st2).
  { unfold UpdateReplacementState. rewrite He3'.
    destruct (Z.leb_spec EPOCH_LENGTH (Z.of_nat k + 1)) as [Hge|]; [|reflexivity].
    unfold EPOCH_LENGTH, LLC_WAYS in *. lia. }
  exists (record_access set k 0 st2).
  unfold miss. rewrite Hget, Hupd. split; [reflexivity|].
  unfold fill_inv. rewrite Hr3, Hv3, Hs3, He3', Hrrpv, Hvalid, Hshct2.
  split; [by apply get2_set2_eq|].
  repeat split; try (by apply shape2_set2).
  - intros w Hw. rewrite get2_set2 by assumption. case_decide as Hd.
    + destruct Hd as [_ <-]. symmetry. apply bool_decide_eq_true. lia.
    + rewrite Hval by exact Hw. apply bool_decide_ext. split; [lia|].
      intros Hlt. destruct (decide (w = k)) as [->|]; [|lia]. by destruct Hd.
  - intros w Hw. rewrite get2_set2 by assumption. case_decide as Hd; [reflexivity|].
    apply Hrr. destruct (decide (w = k)) as [->|]; [|lia]. by destruct Hd.
  - lia.
Qed.

Lemma run_misses_fill fuel set accs : forall k st,
  (set < LLC_SETS)%nat -> (k + length accs <= LLC_WAYS)%nat -> fill_inv set k st ->
  exists st',
    run_misses fuel set accs st
    = Some ((fun w => (w, 0)) <$> seq k (length accs), st')
    /\ fill_inv set (k + length accs) st'.
Proof.
  induction accs as [|[PC paddr] accs IH]; intros k st Hset Hk Hinv.
  - exists st. simpl. rewrite Nat.add_0_r. by split.
  - simpl in Hk.
    destruct (miss_fill (BLOCK := unit) fuel set [] PC paddr k st Hset ltac:(lia) Hinv)
      as (st1 & Hmiss & Hrr & Hinv1).
    destruct (IH (S k) st1 Hset ltac:(lia) Hinv1) as (st2 & Hrun & Hinv2).
    exists st2. cbn [run_misses]. rewrite Hmiss, Hrun, Hrr. split; [reflexivity|].
    simpl. by rewrite Nat.add_succ_r.
Qed.

Lemma rrip_row_zero fuel :
  (Z.to_nat MAX_RRPV < fuel)%nat ->
  rrip_row fuel (replicate LLC_WAYS 0) = Some (0%nat, replicate LLC_WAYS MAX_RRPV).
Proof.
  unfold MAX_RRPV at 1. intros Hfuel.
  do 4 (destruct fuel as [|fuel]; [lia|]).
  reflexivity.
Qed.

Lemma row_replicate (row : list Z) n v :
  length row = n -> (forall w, (w < n)%nat -> row !!! w = v) -> row = replicate n v.
Proof.
  intros Hlen Hrow. apply (list_eq_same_length _ _ n); [apply length_replicate | exact Hlen |].
  intros i x y Hi Hx Hy.
  apply lookup_replicate in Hy as [-> _].
  rewrite <- (Hrow i Hi). symmetry. by apply list_lookup_total_correct.
Qed.

(** C1, as the source has it. From [InitReplacementState], sixteen misses
    to one set take ways [0] to [15] in order and install every line with
    [rrpv = 0]: [SHCT_INIT] meets [SHCT_THRESHOLD], so an unseen signature is
    hot. This holds for any sixteen program counters and addresses, those of
    the scenario among them. The seventeenth miss finds every way valid and
    none at [MAX_RRPV]; the search ages the set and evicts way [0], whose
    [rrpv] is [MAX_RRPV] by then. *)
Theorem fill_then_evict {BLOCK} fuel set accs cpu (cs : list BLOCK) PC paddr type :
  (set < LLC_SETS)%nat -> length accs = LLC_WAYS ->
  (Z.to_nat MAX_RRPV < fuel)%nat ->
  exists st16 st_aged,
    run_misses fuel set accs InitReplacementState
    = Some ((fun w => (w, 0)) <$> seq 0 LLC_WAYS, st16)
    /\ (forall w, (w < LLC_WAYS)%nat ->
          get2 (valid_entries st16) set w = true /\ get2 (RRPV st16) set w = 0)
    /\ FindVictimWay fuel set (stream_update (GetSignature PC) (Z.shiftr paddr 6) st16)
       = Some (0%nat, st_aged)
    /\ get2 (RRPV st_aged) set 0 = MAX_RRPV
    /\ GetVictimInSet fuel cpu set cs PC paddr type st16
       = Some (0%nat, install set 0 (GetSignature PC) (evict_penalty set 0 st_aged)).
Proof.
  intros Hset Hlen Hfuel.
  destruct (run_misses_fill fuel set accs 0 InitReplacementState Hset
              ltac:(lia) (fill_inv_init set Hset))
    as (st16 & Hrun & S1 & S2 & Hval & Hrr & _ & _).
  rewrite Hlen in Hrun. simpl in Hval, Hrr. rewrite Hlen in Hval, Hrr.
  assert (Hall : forall w, (w < LLC_WAYS)%nat -> get2 (valid_entries st16) set w = true).
  { intros w Hw. rewrite Hval by exact Hw. by apply bool_decide_eq_true. }
  set (st1 := stream_update (GetSignature PC) (Z.shiftr paddr 6) st16).
  assert (Hrow : RRPV st1 !!! set = replicate LLC_WAYS 0).
  { apply row_replicate; [by apply shape2_row | exact Hrr]. }
  assert (Hfind : FindVictimWay fuel set st1
                  = Some (0%nat, with_RRPV (<[set := replicate LLC_WAYS MAX_RRPV]> (RRPV st1)) st1)).
  { rewrite FindVictimWay_all_valid by assumption.
    rewrite Hrow. by rewrite rrip_row_zero. }
  exists st16. eexists. split; [exact Hrun|]. split; [|split; [exact Hfind|]].
  - intros w Hw. split; [by apply Hall | by apply Hrr].
  - split.
    + unfold with_RRPV, get2. proj.
      rewrite list_lookup_total_insert_eq by (destruct S1; unfold st1, stream_update; proj; lia).
      reflexivity.
    + unfold GetVictimInSet. fold st1. by rewrite Hfind.
Qed.

Lemma fill_then_evict_witness :
  exists st16 st_aged,
    run_misses 4 0 scenario16 InitReplacementState
    = Some ((fun w => (w, 0)) <$> seq 0 LLC_WAYS, st16)
    /\ (forall w, (w < LLC_WAYS)%nat ->
          get2 (valid_entries st16) 0 w = true /\ get2 (RRPV st16) 0 w = 0)
    /\ FindVictimWay 4 0 (stream_update (GetSignature 0x400040) (Z.shiftr 0x10400 6) st16)
       = Some (0%nat, st_aged)
    /\ get2 (RRPV st_aged) 0 0 = MAX_RRPV
    /\ GetVictimInSet (BLOCK := unit) 4 0 0 [] 0x400040 0x10400 0 st16
       = Some (0%nat, install 0 0 (GetSignature 0x400040) (evict_penalty 0 0 st_aged)).
Proof.
  refine (fill_then_evict 4 0 scenario16 0 [] 0x400040 0x10400 0 _ _ _).
  - unfold LLC_SETS, NUM_CORE. lia.
  - reflexivity.
  - vm_compute. lia.
Defined.

(** C1, as the specification words it, fails on the scenario itself: the
    sixteen signatures are distinct, the block addresses consecutive, and
    the lines are installed with [rrpv = 0], not [MAX_RRPV]. *)
Lemma cold_fill_counterexample :
  NoDup (GetSignature <$> (fst <$> scenario16))
  /\ (fun a => Z.shiftr a 6) <$> (snd <$> scenario16)
     = (fun i => 0x400 + Z.of_nat i) <$> seq 0 16
  /\ exists tr st,
       run_misses 4 0 scenario16 InitReplacementState = Some (tr, st)
       /\ tr = (fun w => (w, 0)) <$> seq 0 16
       /\ ~ Forall (fun wr => snd wr = MAX_RRPV) tr.
Proof.
  split; [|split].
  - refine (bool_decide_unpack _ _). vm_compute. exact I.
  - vm_compute. reflexivity.
  - assert (Htr : fst <$> run_misses 4 0 scenario16 InitReplacementState
                  = Some ((fun w => (w, 0)) <$> seq 0 16))
      by (vm_compute; reflexivity).
    destruct (run_misses 4 0 scenario16 InitReplacementState) as [[tr st]|];
      [|discriminate].
    injection Htr as ->. eexists; exists st. split; [reflexivity|]. split; [reflexivity|].
    intros HF. inversion HF as [|? ? Hhd _]. discriminate Hhd.
Qed.

(** The phase test works on rounded values: for the exact rates [0.40] and
    [0.45] the rounded swing is below the double [0.05]; for [0.40] and
    [0.46] it is above. *)
Example phase_change_rounding :
  phase_change (epoch_end 100000 45000 0 0
                  (ddiv (double_of_u64 40000) (double_of_u64 100000)) 2) = false
  /\ phase_change (epoch_end 100000 46000 0 0
                     (ddiv (double_of_u64 40000) (double_of_u64 100000)) 2) = true.
Proof. vm_compute. split; reflexivity. Qed.

(** The range of [rrpv] is what makes the search return: on a full set
    whose lines all sit above [MAX_RRPV], a value the [uint8_t] cells can
    hold but no reachable state has, no amount of fuel is enough. *)
Remark FindVictimWay_needs_range fuel set :
  (set < LLC_SETS)%nat -> FindVictimWay fuel set (full_state 4 0 false) = None.
Proof.
  intros Hset. rewrite FindVictimWay_all_valid.
  - unfold full_state. proj. rewrite lookup_total_replicate_2 by exact Hset.
    assert (Hrow : rrip_row fuel (replicate LLC_WAYS 4) = None).
    { induction fuel as [|fuel IH]; [reflexivity|].
      rewrite rrip_row_S. exact IH. }
    by rewrite Hrow.
  - apply shape2_replicate.
  - exact Hset.
  - intros w Hw. unfold full_state, get2. proj.
    by rewrite !lookup_total_replicate_2.
Qed.

(** Fuel never cuts a run short: from a reachable state every call of
    [GetVictimInSet] within the array bounds returns with [MAX_RRPV + 1]
    units. *)
Corollary reachable_progress {BLOCK} cpu set (cs : list BLOCK) PC paddr type st :
  reachable st -> (set < LLC_SETS)%nat -> 0 <= paddr < 2 ^ 64 ->
  exists w st',
    GetVictimInSet (Z.to_nat (MAX_RRPV + 1)) cpu set cs PC paddr type st = Some (w, st')
    /\ (w < LLC_WAYS)%nat.
Proof.
  intros Hreach Hset Hpa.
  destruct (GetVictimInSet_run (Z.to_nat (MAX_RRPV + 1)) cpu set cs PC paddr type st
              (reachable_wf st Hreach) Hset Hpa ltac:(unfold MAX_RRPV; lia))
    as (w & rr & Hw & _ & _ & Hrun).
  exists w. eexists. split; [exact Hrun | exact Hw].
Qed.

(** * Further properties of the source *)

(** ** Signature hash *)

(** X1. The signature is a table index for every program counter, and only
    bits 0 to 30 of the program counter take part in it: the fold reads bits
    [i], [i + 12] and [i + 20] for [i < 11]. *)
Theorem GetSignature_low_bits PC :
  0 <= GetSignature PC < SIG_TABLE_SIZE
  /\ GetSignature (PC mod 2 ^ 31) = GetSignature PC
  /\ (forall i, 0 <= i < 11 ->
        Z.testbit (GetSignature PC) i
        = xorb (xorb (Z.testbit PC i) (Z.testbit PC (i + 12))) (Z.testbit PC (i + 20))).
Proof.
  assert (Hbits : forall x i, 0 <= i ->
            Z.testbit (Z.land (Z.lxor (Z.lxor x (Z.shiftr x 12)) (Z.shiftr x 20))
                              (SIG_TABLE_SIZE - 1)) i
            = xorb (xorb (Z.testbit x i) (Z.testbit x (i + 12))) (Z.testbit x (i + 20))
              && (i <? 11)).
  { intros x i Hi. change (SIG_TABLE_SIZE - 1) with (Z.ones 11).
    rewrite Z.land_spec, !Z.lxor_spec, !Z.shiftr_spec by lia.
    f_equal. destruct (Z.ltb_spec i 11).
    - apply Z.ones_spec_low. lia.
    - apply Z.ones_spec_high. lia. }
  assert (Hsmall : forall x,
            wrap32 (Z.land (Z.lxor (Z.lxor x (Z.shiftr x 12)) (Z.shiftr x 20))
                           (SIG_TABLE_SIZE - 1))
            = Z.land (Z.lxor (Z.lxor x (Z.shiftr x 12)) (Z.shiftr x 20))
                     (SIG_TABLE_SIZE - 1)).
  { intros x. unfold wrap32. apply Z.mod_small.
    change (SIG_TABLE_SIZE - 1) with (Z.ones 11).
    rewrite Z.land_ones by lia.
    pose proof (Z.mod_pos_bound (Z.lxor (Z.lxor x (Z.shiftr x 12)) (Z.shiftr x 20))
                  (2 ^ 11) ltac:(lia)).
    lia. }
  split; [apply GetSignature_range|]. split.
  - unfold GetSignature. rewrite !Hsmall. apply Z.bits_inj'. intros i Hi.
    rewrite !Hbits by exact Hi.
    destruct (Z.ltb_spec i 11); [|by rewrite !andb_false_r].
    by rewrite !Z.mod_pow2_bits_low by lia.
  - intros i Hi. unfold GetSignature. rewrite Hsmall, Hbits by lia.
    destruct (Z.ltb_spec i 11); [apply andb_true_r | lia].
Qed.

Lemma GetSignature_low_bits_witness :
  Z.testbit (GetSignature 0x12345678) 3
  = xorb (xorb (Z.testbit 0x12345678 3) (Z.testbit 0x12345678 (3 + 12)))
         (Z.testbit 0x12345678 (3 + 20)).
Proof.
  refine (proj2 (proj2 (GetSignature_low_bits 0x12345678)) 3 _). lia.
Defined.

(** ** Outcome path *)

Lemma UpdateReplacementState_lines cpu set way paddr PC victim_addr type hit st :
  let st' := UpdateReplacementState cpu set way paddr PC victim_addr type hit st in
  let st1 := record_access set way hit st in
  RRPV st' = RRPV st1 /\ valid_entries st' = valid_entries st1
  /\ sig_mem st' = sig_mem st1 /\ has_hit st' = has_hit st1
  /\ is_streaming st' = is_streaming st1 /\ SHCT st' = SHCT st1
  /\ stat_hits st' = stat_hits st1 /\ stat_misses st' = stat_misses st1.
Proof.
  cbv zeta. unfold UpdateReplacementState.
  by destruct (EPOCH_LENGTH <=? epoch_accesses (record_access set way hit st)).
Qed.

Lemma record_access_hit set way hit st :
  hit <> 0 ->
  record_access set way hit st
  = {| RRPV := set2 (RRPV st) set way 0;
       valid_entries := valid_entries st;
       sig_mem := sig_mem st;
       has_hit := set2 (has_hit st) set way true;
       is_streaming := is_streaming st;
       SHCT := if tget (SHCT st) (get2 (sig_mem st) set way) <? SHCT_MAX
               then tset (SHCT st) (get2 (sig_mem st) set way)
                         (wrap8 (tget (SHCT st) (get2 (sig_mem st) set way) + 1))
               else SHCT st;
       STCT := STCT st;
       last_addr := last_addr st;
       g_STCT_THRESHOLD := g_STCT_THRESHOLD st;
       stat_hits := wrap64 (stat_hits st + 1);
       stat_misses := stat_misses st;
       epoch_accesses := wrap64 (epoch_accesses st + 1);
       epoch_hits := wrap64 (epoch_hits st + 1);
       epoch_misses := epoch_misses st;
       stream_inserts := stream_inserts st;
       stream_hits := if get2 (is_streaming st) set way
                      then wrap64 (stream_hits st + 1)
                      else stream_hits st;
       stream_misses := stream_misses st;
       prev_miss_rate := prev_miss_rate st |}.
Proof.
  intros Hhit. unfold record_access.
  by destruct (Z.eqb_spec hit 0).
Qed.

(** The saturating increment of line 186 as one table write. *)
Lemma shct_bump t sig :
  length t = Z.to_nat SIG_TABLE_SIZE -> 0 <= sig < SIG_TABLE_SIZE ->
  0 <= tget t sig <= SHCT_MAX ->
  (if tget t sig <? SHCT_MAX then tset t sig (wrap8 (tget t sig + 1)) else t)
  = tset t sig (Z.min (tget t sig + 1) SHCT_MAX).
Proof.
  intros Hlen Hsig Hc. unfold SHCT_MAX in *.
  destruct (Z.ltb_spec (tget t sig) 3).
  - rewrite wrap8_small by lia. f_equal. lia.
  - replace (Z.min _ 3) with (tget t sig) by lia.
    unfold tset, tget. symmetry. apply list_insert_id.
    apply list_lookup_lookup_total_lt. lia.
Qed.

Lemma stored_signature_range st set way :
  wf st -> (set < LLC_SETS)%nat -> (way < LLC_WAYS)%nat ->
  0 <= get2 (sig_mem st) set way < SIG_TABLE_SIZE
  /\ 0 <= tget (SHCT st) (get2 (sig_mem st) set way) <= SHCT_MAX.
Proof.
  intros [[_ Hh _ _] [_ _ S3 _ _ L1 _ _ Hsig _]] Hset Hway.
  pose proof (Forall2_get2 _ _ set way Hsig S3 Hset Hway) as Hold. simpl in Hold.
  split; [exact Hold|]. exact (tget_range _ _ _ Hh L1 Hold).
Qed.

(** X2. A hit reported for [(set, way)] sets the line's [rrpv] to [0] and
    its [has_hit] flag, adds one, saturating at [SHCT_MAX], to the SHCT entry
    of the signature stored with the line, and changes no other line, no
    other SHCT entry, and no [valid], signature or streaming flag; an epoch
    boundary falling on the same call does not alter any of this. *)
Theorem hit_promotes_line cpu set way paddr PC victim_addr type hit st :
  wf st -> (set < LLC_SETS)%nat -> (way < LLC_WAYS)%nat -> hit <> 0 ->
  let st' := UpdateReplacementState cpu set way paddr PC victim_addr type hit st in
  let sig := get2 (sig_mem st) set way in
  get2 (RRPV st') set way = 0
  /\ get2 (has_hit st') set way = true
  /\ SHCT st' = tset (SHCT st) sig (Z.min (tget (SHCT st) sig + 1) SHCT_MAX)
  /\ (forall s' w', s' <> set \/ w' <> way ->
        get2 (RRPV st') s' w' = get2 (RRPV st) s' w'
        /\ get2 (has_hit st') s' w' = get2 (has_hit st) s' w')
  /\ valid_entries st' = valid_entries st
  /\ sig_mem st' = sig_mem st
  /\ is_streaming st' = is_streaming st.
Proof.
  intros Hwf Hset Hway Hhit. cbv zeta.
  destruct (UpdateReplacementState_lines cpu set way paddr PC victim_addr type hit st)
    as (-> & -> & -> & -> & -> & -> & _).
  rewrite record_access_hit by exact Hhit. proj.
  destruct (stored_signature_range st set way Hwf Hset Hway) as [Hsig Hc].
  destruct Hwf as [_ [S1 _ _ S4 _ L1 _ _ _ _]].
  repeat split; try (by apply get2_set2_eq); try (by apply get2_set2_other).
  by apply shct_bump.
Qed.

Lemma hit_promotes_line_witness :
  get2 (RRPV (UpdateReplacementState 0 3 5 0x1000 0x400 0 0 1 (full_state 2 9 true))) 3 5
  = 0.
Proof.
  refine (proj1 (hit_promotes_line 0 3 5 0x1000 0x400 0 0 1 (full_state 2 9 true) _ _ _ _)).
  - apply full_state_wf; unfold MAX_RRPV, SIG_TABLE_SIZE; lia.
  - unfold LLC_SETS, NUM_CORE. lia.
  - unfold LLC_WAYS. lia.
  - lia.
Defined.

(** X3. An outcome reported as a miss leaves every line and every SHCT
    entry as they were, whether or not the call closes an epoch; it counts
    one miss and no hit in the lifetime totals. *)
Theorem miss_outcome_frame cpu set way paddr PC victim_addr type st :
  let st' := UpdateReplacementState cpu set way paddr PC victim_addr type 0 st in
  RRPV st' = RRPV st /\ valid_entries st' = valid_entries st
  /\ sig_mem st' = sig_mem st /\ has_hit st' = has_hit st
  /\ is_streaming st' = is_streaming st /\ SHCT st' = SHCT st
  /\ stat_hits st' = stat_hits st
  /\ stat_misses st' = wrap64 (stat_misses st + 1).
Proof.
  cbv zeta.
  destruct (UpdateReplacementState_lines cpu set way paddr PC victim_addr type 0 st)
    as (-> & -> & -> & -> & -> & -> & -> & ->).
  repeat split.
Qed.

(** ** Epoch accounting *)

Lemma FindVictimWay_frame fuel set st w st' :
  FindVictimWay fuel set st = Some (w, st') -> exists rr, st' = with_RRPV rr st.
Proof.
  unfold FindVictimWay. destruct (first_way _ 0 LLC_WAYS).
  - intros [= _ <-]. exists (RRPV st). symmetry. apply with_RRPV_id.
  - destruct (rrip_loop fuel set (RRPV st)) as [[w1 rr]|]; [|discriminate].
    intros [= _ <-]. by exists rr.
Qed.

(** The miss path leaves the hit and miss counters, the threshold and the
    recorded miss rate alone. *)
Lemma GetVictimInSet_counters {BLOCK} fuel cpu set (cs : list BLOCK) PC paddr type st w st' :
  GetVictimInSet fuel cpu set cs PC paddr type st = Some (w, st') ->
  epoch_accesses st' = epoch_accesses st /\ epoch_hits st' = epoch_hits st
  /\ epoch_misses st' = epoch_misses st /\ stream_hits st' = stream_hits st
  /\ stat_hits st' = stat_hits st /\ stat_misses st' = stat_misses st
  /\ g_STCT_THRESHOLD st' = g_STCT_THRESHOLD st
  /\ prev_miss_rate st' = prev_miss_rate st.
Proof.
  unfold GetVictimInSet.
  destruct (FindVictimWay fuel set _) as [[way st2]|] eqn:E; [|discriminate].
  intros [= <- <-]. apply FindVictimWay_frame in E as [rr ->].
  unfold install, evict_penalty, with_RRPV, stream_update. proj.
  by destruct (get2 (valid_entries st) set way).
Qed.

Lemma wrap64_succ x : 0 <= x < EPOCH_LENGTH -> wrap64 (x + 1) = x + 1.
Proof. unfold wrap64, EPOCH_LENGTH. intros H. apply Z.mod_small. lia. Qed.

(** X4. In every reachable state the epoch has seen fewer than
    [EPOCH_LENGTH] accesses, its hits and misses add up to its accesses, and
    its streaming hits are among its hits. *)
Theorem epoch_counters_consistent st :
  reachable st ->
  0 <= epoch_accesses st < EPOCH_LENGTH
  /\ 0 <= epoch_hits st /\ 0 <= epoch_misses st
  /\ epoch_hits st + epoch_misses st = epoch_accesses st
  /\ 0 <= stream_hits st <= epoch_hits st.
Proof.
  induction 1 as [|st st' _ IH Hstep].
  - unfold InitReplacementState, EPOCH_LENGTH. proj. lia.
  - destruct Hstep as [BLOCK fuel cpu set cs PC paddr type st way st' _ _ _ Hrun
                      |cpu set way paddr PC victim_addr type hit st _ _ _].
    + apply GetVictimInSet_counters in Hrun as (-> & -> & -> & -> & _). exact IH.
    + destruct IH as (Hea & Heh & Hem & Hsum & Hsh).
      unfold UpdateReplacementState.
      destruct (EPOCH_LENGTH <=? epoch_accesses (record_access set way hit st)) eqn:E.
      { unfold MonitorEpoch, EPOCH_LENGTH. proj. lia. }
      apply Z.leb_gt in E. revert E. unfold record_access.
      destruct (hit =? 0); proj; rewrite !wrap64_succ by lia; intros E.
      * lia.
      * destruct (get2 (is_streaming st) set way);
          rewrite ?wrap64_succ by lia; lia.
Qed.

Lemma epoch_counters_consistent_witness :
  epoch_hits (UpdateReplacementState 0 0 0 0 0 0 0 1 InitReplacementState)
  + epoch_misses (UpdateReplacementState 0 0 0 0 0 0 0 1 InitReplacementState)
  = epoch_accesses (UpdateReplacementState 0 0 0 0 0 0 0 1 InitReplacementState).
Proof.
  refine (proj1 (proj2 (proj2 (proj2 (epoch_counters_consistent _ _))))).
  eapply reachable_step; [apply reachable_init|].
  apply step_update; [unfold LLC_SETS, NUM_CORE | unfold LLC_WAYS |]; lia.
Defined.

(** X5. [UpdateReplacementState] counts accesses modulo [EPOCH_LENGTH].
    Short of the boundary it leaves the stream detector's tables, the
    threshold, the recorded miss rate and the streaming insert and miss
    counters alone; on the boundary it zeroes the epoch and streaming
    counters and records the miss rate of the epoch that ends. *)
Theorem epoch_boundary cpu set way paddr PC victim_addr type hit st :
  0 <= epoch_accesses st < EPOCH_LENGTH ->
  let st1 := record_access set way hit st in
  let st' := UpdateReplacementState cpu set way paddr PC victim_addr type hit st in
  epoch_accesses st' = (epoch_accesses st + 1) mod EPOCH_LENGTH
  /\ (epoch_accesses st + 1 < EPOCH_LENGTH ->
      STCT st' = STCT st /\ last_addr st' = last_addr st
      /\ g_STCT_THRESHOLD st' = g_STCT_THRESHOLD st
      /\ prev_miss_rate st' = prev_miss_rate st
      /\ stream_inserts st' = stream_inserts st
      /\ stream_misses st' = stream_misses st)
  /\ (epoch_accesses st + 1 = EPOCH_LENGTH ->
      epoch_hits st' = 0 /\ epoch_misses st' = 0
      /\ stream_inserts st' = 0 /\ stream_hits st' = 0 /\ stream_misses st' = 0
      /\ prev_miss_rate st'
         = ddiv (double_of_u64 (epoch_misses st1)) (double_of_u64 EPOCH_LENGTH)).
Proof.
  intros Hea. cbv zeta.
  assert (He1 : epoch_accesses (record_access set way hit st) = epoch_accesses st + 1).
  { unfold record_access. destruct (hit =? 0); proj; by apply wrap64_succ. }
  unfold UpdateReplacementState. rewrite He1.
  destruct (Z.leb_spec EPOCH_LENGTH (epoch_accesses st + 1)) as [Hge|Hlt].
  - assert (Heq : epoch_accesses st + 1 = EPOCH_LENGTH) by lia.
    split; [|split; [lia|]].
    + unfold MonitorEpoch. proj. rewrite Heq. symmetry. apply Z.mod_same.
      unfold EPOCH_LENGTH. lia.
    + intros _. unfold MonitorEpoch, cur_miss_rate. proj. rewrite He1, Heq.
      repeat split.
  - split; [|split; [|lia]].
    + rewrite He1. symmetry. apply Z.mod_small. lia.
    + intros _. unfold record_access. destruct (hit =? 0); proj; repeat split.
Qed.

Lemma epoch_boundary_witness :
  epoch_accesses
    (UpdateReplacementState 0 0 0 0 0 0 0 0 (epoch_end 99999 40000 10 2 dzero 2))
  = (epoch_accesses (epoch_end 99999 40000 10 2 dzero 2) + 1) mod EPOCH_LENGTH.
Proof.
  refine (proj1 (epoch_boundary 0 0 0 0 0 0 0 0 (epoch_end 99999 40000 10 2 dzero 2) _)).
  unfold epoch_end, EPOCH_LENGTH. proj. lia.
Defined.

(** X6. No call moves the streaming threshold by more than one, the miss
    path never moves it, and the outcome path moves it only when the call
    closes an epoch. *)
Theorem threshold_moves_slowly st st' :
  1 <= g_STCT_THRESHOLD st <= STCT_MAX ->
  0 <= epoch_accesses st < EPOCH_LENGTH ->
  step st st' ->
  Z.abs (g_STCT_THRESHOLD st' - g_STCT_THRESHOLD st) <= 1
  /\ (epoch_accesses st' = epoch_accesses st ->
      g_STCT_THRESHOLD st' = g_STCT_THRESHOLD st)
  /\ (epoch_accesses st + 1 < EPOCH_LENGTH ->
      g_STCT_THRESHOLD st' = g_STCT_THRESHOLD st).
Proof.
  intros Hthr Hea Hstep.
  destruct Hstep as [BLOCK fuel cpu set cs PC paddr type st way st' _ _ _ Hrun
                    |cpu set way paddr PC victim_addr type hit st _ _ _].
  - apply GetVictimInSet_counters in Hrun as (_ & _ & _ & _ & _ & _ & -> & _).
    rewrite Z.sub_diag. simpl. repeat split; lia.
  - assert (He1 : epoch_accesses (record_access set way hit st) = epoch_accesses st + 1).
    { unfold record_access. destruct (hit =? 0); proj; by apply wrap64_succ. }
    assert (Ht1 : g_STCT_THRESHOLD (record_access set way hit st) = g_STCT_THRESHOLD st).
    { unfold record_access. by destruct (hit =? 0). }
    unfold UpdateReplacementState. rewrite He1.
    destruct (Z.leb_spec EPOCH_LENGTH (epoch_accesses st + 1)) as [Hge|Hlt].
    + unfold MonitorEpoch. proj. rewrite Ht1.
      rewrite adapt_threshold_spec by exact Hthr.
      unfold STCT_MAX, EPOCH_LENGTH in *.
      split; [|split].
      * destruct (dlt _ STREAM_LOW_RATIO); [lia|].
        destruct (dlt STREAM_HIGH_RATIO _); lia.
      * lia.
      * lia.
    + rewrite Ht1, He1. rewrite Z.sub_diag. simpl. repeat split; lia.
Qed.

Lemma threshold_moves_slowly_witness :
  Z.abs (g_STCT_THRESHOLD
           (UpdateReplacementState 0 0 0 0 0 0 0 0 (epoch_end 99999 40000 10 9 dzero 2))
         - g_STCT_THRESHOLD (epoch_end 99999 40000 10 9 dzero 2)) <= 1.
Proof.
  refine (proj1 (threshold_moves_slowly (epoch_end 99999 40000 10 9 dzero 2) _ _ _ _)).
  - unfold epoch_end, STCT_MAX. proj. lia.
  - unfold epoch_end, EPOCH_LENGTH. proj. lia.
  - apply step_update; [unfold LLC_SETS, NUM_CORE | unfold LLC_WAYS |]; lia.
Defined.

(** X7. The zero-denominator guard of line 82 makes an epoch without any
    streaming insert count as a ratio of [0.0], which is below
    [STREAM_LOW_RATIO]: such an epoch raises the threshold by one, up to
    [STCT_MAX]. *)
Theorem idle_epoch_tightens st :
  1 <= g_STCT_THRESHOLD st <= STCT_MAX ->
  stream_inserts st = 0 ->
  g_STCT_THRESHOLD (MonitorEpoch st) = Z.min (g_STCT_THRESHOLD st + 1) STCT_MAX.
Proof.
  intros Hthr Hins. unfold MonitorEpoch. proj.
  rewrite adapt_threshold_spec by exact Hthr.
  unfold stream_ratio. rewrite Hins.
  change (0 =? 0) with true. cbv iota.
  assert (Hlow : dlt dzero STREAM_LOW_RATIO = true) by reflexivity.
  by rewrite Hlow.
Qed.

Lemma idle_epoch_tightens_witness :
  g_STCT_THRESHOLD (MonitorEpoch (epoch_end 100000 100000 0 0 dzero 3))
  = Z.min (g_STCT_THRESHOLD (epoch_end 100000 100000 0 0 dzero 3) + 1) STCT_MAX.
Proof.
  refine (idle_epoch_tightens (epoch_end 100000 100000 0 0 dzero 3) _ _).
  - unfold epoch_end, STCT_MAX. proj. lia.
  - reflexivity.
Defined.

(** ** Which way the search evicts *)

(** On a row in range, the way the search returns is the first one holding
    the largest [rrpv], and the passes it made added the distance of that
    [rrpv] from [MAX_RRPV] to every way. *)
Lemma rrip_row_max fuel (row : list Z) w row' :
  length row = LLC_WAYS -> Forall (fun r => 0 <= r <= MAX_RRPV) row ->
  rrip_row fuel row = Some (w, row') ->
  (w < LLC_WAYS)%nat
  /\ (forall w', (w' < LLC_WAYS)%nat -> row !!! w' <= row !!! w)
  /\ (forall w', (w' < w)%nat -> row !!! w' < row !!! w)
  /\ (forall w', (w' < LLC_WAYS)%nat ->
        row' !!! w' = row !!! w' + (MAX_RRPV - row !!! w)).
Proof.
  intros Hlen Hrange H.
  apply rrip_row_first in H as (n & -> & Hbefore & Hw & Hmax & Hlow).
  assert (Hr : forall w', (w' < LLC_WAYS)%nat -> 0 <= row !!! w' <= MAX_RRPV).
  { intros w' Hw'. apply (Forall_lookup_total_1 _ _ w' Hrange). lia. }
  assert (Hit : forall m w', (w' < LLC_WAYS)%nat ->
            Nat.iter m (fmap age1) row !!! w' = Z.min (row !!! w' + Z.of_nat m) MAX_RRPV).
  { intros m w' Hw'. apply age_iter_lookup; [lia | by apply Hr]. }
  rewrite Hit in Hmax by exact Hw.
  assert (Hn : Z.of_nat n = MAX_RRPV - row !!! w).
  { pose proof (Hr w Hw). destruct n as [|n]; [lia|].
    pose proof (Hbefore n w ltac:(lia) Hw) as Hb. rewrite Hit in Hb by exact Hw. lia. }
  assert (Hle : forall w', (w' < LLC_WAYS)%nat -> row !!! w' <= row !!! w).
  { intros w' Hw'. pose proof (Hr w' Hw'). pose proof (Hr w Hw).
    destruct n as [|n]; [lia|].
    pose proof (Hbefore n w' ltac:(lia) Hw') as Hb. rewrite Hit in Hb by exact Hw'. lia. }
  split; [exact Hw|]. split; [exact Hle|]. split.
  - intros w' Hw'. pose proof (Hle w' ltac:(lia)).
    pose proof (Hlow w' Hw') as Hb. rewrite Hit in Hb by lia.
    pose proof (Hr w' ltac:(lia)). lia.
  - intros w' Hw'. rewrite Hit by exact Hw'.
    pose proof (Hle w' Hw'). pose proof (Hr w' Hw'). lia.
Qed.

(** X8. On a set whose ways are all valid and whose [rrpv] values are in
    range, [FindVictimWay] returns the lowest-index way among those with the
    largest [rrpv]; it leaves the set with that [rrpv]'s distance from
    [MAX_RRPV] added to every way, and every other set as it was. *)
Theorem victim_is_first_oldest fuel set st :
  shape2 (RRPV st) -> (set < LLC_SETS)%nat ->
  Forall (Forall (fun r => 0 <= r <= MAX_RRPV)) (RRPV st) ->
  (forall w, (w < LLC_WAYS)%nat -> get2 (valid_entries st) set w = true) ->
  (Z.to_nat MAX_RRPV < fuel)%nat ->
  exists w st',
    FindVictimWay fuel set st = Some (w, st')
    /\ (w < LLC_WAYS)%nat
    /\ (forall w', (w' < LLC_WAYS)%nat -> get2 (RRPV st) set w' <= get2 (RRPV st) set w)
    /\ (forall w', (w' < w)%nat -> get2 (RRPV st) set w' < get2 (RRPV st) set w)
    /\ (forall w', (w' < LLC_WAYS)%nat ->
          get2 (RRPV st') set w'
          = get2 (RRPV st) set w' + (MAX_RRPV - get2 (RRPV st) set w))
    /\ (forall s', s' <> set -> RRPV st' !!! s' = RRPV st !!! s').
Proof.
  intros Hsh Hset Hr Hval Hfuel.
  assert (Hlen : length (RRPV st !!! set) = LLC_WAYS) by (by apply shape2_row).
  assert (Hrow : Forall (fun r => 0 <= r <= MAX_RRPV) (RRPV st !!! set)).
  { apply Forall_lookup_total_1; [exact Hr | destruct Hsh; lia]. }
  destruct (rrip_row_terminates (Z.to_nat MAX_RRPV) fuel (RRPV st !!! set) Hlen Hfuel)
    as (w & n & _ & Hrun & _).
  { exists 0%nat. split; [unfold LLC_WAYS; lia|].
    pose proof (Forall_lookup_total_1 _ _ 0%nat Hrow ltac:(rewrite Hlen; unfold LLC_WAYS; lia))
      as H0.
    simpl in H0. unfold MAX_RRPV in *. lia. }
  destruct (rrip_row_max _ _ _ _ Hlen Hrow Hrun) as (Hw & Hle & Hlt & Haged).
  exists w. eexists. split.
  { rewrite FindVictimWay_all_valid by assumption. by rewrite Hrun. }
  unfold with_RRPV, get2. proj.
  repeat split; try assumption.
  - intros w' Hw'. rewrite list_lookup_total_insert_eq by (destruct Hsh; lia).
    by apply Haged.
  - intros s' Hne. by apply list_lookup_total_insert_ne.
Qed.

Lemma victim_is_first_oldest_witness :
  exists w st',
    FindVictimWay 4 1 (full_state 1 0 false) = Some (w, st')
    /\ (w < LLC_WAYS)%nat
    /\ (forall w', (w' < LLC_WAYS)%nat ->
          get2 (RRPV (full_state 1 0 false)) 1 w' <= get2 (RRPV (full_state 1 0 false)) 1 w)
    /\ (forall w', (w' < w)%nat ->
          get2 (RRPV (full_state 1 0 false)) 1 w' < get2 (RRPV (full_state 1 0 false)) 1 w)
    /\ (forall w', (w' < LLC_WAYS)%nat ->
          get2 (RRPV st') 1 w'
          = get2 (RRPV (full_state 1 0 false)) 1 w'
            + (MAX_RRPV - get2 (RRPV (full_state 1 0 false)) 1 w))
    /\ (forall s', s' <> 1%nat -> RRPV st' !!! s' = RRPV (full_state 1 0 false) !!! s').
Proof.
  refine (victim_is_first_oldest 4 1 (full_state 1 0 false) _ _ _ _ _).
  - apply shape2_replicate.
  - unfold LLC_SETS, NUM_CORE. lia.
  - apply (full_state_wf 1 0 false); unfold MAX_RRPV, SIG_TABLE_SIZE; lia.
  - intros w Hw. unfold full_state, get2. proj.
    rewrite !lookup_total_replicate_2; [reflexivity | exact Hw |].
    unfold LLC_SETS, NUM_CORE. lia.
  - vm_compute. lia.
Defined.

(** ** What a miss writes *)

(** The per-line writes of one call, read off the three phases. *)
Lemma GetVictimInSet_lines {BLOCK} fuel cpu set (cs : list BLOCK) PC paddr type st w st' :
  shape2 (RRPV st) -> (set < LLC_SETS)%nat ->
  GetVictimInSet fuel cpu set cs PC paddr type st = Some (w, st') ->
  (w < LLC_WAYS)%nat
  /\ (forall w', (w' < w)%nat -> get2 (valid_entries st) set w' = true)
  /\ valid_entries st' = set2 (valid_entries st) set w true
  /\ sig_mem st' = set2 (sig_mem st) set w (GetSignature PC)
  /\ has_hit st' = set2 (has_hit st) set w false
  /\ is_streaming st'
     = set2 (is_streaming st) set w
            (g_STCT_THRESHOLD st' <=? tget (STCT st') (GetSignature PC))
  /\ stream_inserts st'
     = (if g_STCT_THRESHOLD st' <=? tget (STCT st') (GetSignature PC)
        then wrap64 (stream_inserts st + 1) else stream_inserts st)
  /\ (forall s', s' <> set -> RRPV st' !!! s' = RRPV st !!! s').
Proof.
  intros Hsh Hset H. unfold GetVictimInSet in H.
  set (st1 := stream_update (GetSignature PC) (Z.shiftr paddr 6) st) in *.
  destruct (FindVictimWay fuel set st1) as [[way st2]|] eqn:E; [|discriminate].
  injection H as -> <-.
  apply FindVictimWay_inv in E as (Hw & Hcase); [| exact Hsh | exact Hset].
  assert (Hlow : forall w', (w' < w)%nat -> get2 (valid_entries st) set w' = true).
  { intros w' Hw'. destruct Hcase as [(_ & Hl & _)|(Hl & _)]; apply Hl; lia. }
  assert (Hst2 : exists rr, st2 = with_RRPV rr st1
            /\ forall s', s' <> set -> rr !!! s' = RRPV st !!! s').
  { destruct Hcase as [(_ & _ & ->)|(_ & n & _ & -> & _)].
    - exists (RRPV st1). split; [symmetry; apply with_RRPV_id | reflexivity].
    - eexists. split; [reflexivity|]. intros s' Hne.
      by apply list_lookup_total_insert_ne. }
  destruct Hst2 as (rr & -> & Hrr).
  unfold install. proj. autorewrite with evict.
  replace (stream_inserts (evict_penalty set w (with_RRPV rr st1)))
    with (stream_inserts st)
    by (unfold evict_penalty; by destruct (get2 _ set w)).
  repeat split; try assumption.
  intros s' Hne. unfold set2. rewrite list_lookup_total_insert_ne by done.
  by apply Hrr.
Qed.

(** X9. A miss in one set leaves the lines of every other set exactly as
    they were, with or without aging. *)
Theorem other_sets_untouched {BLOCK} fuel cpu set (cs : list BLOCK) PC paddr type st :
  wf st -> (set < LLC_SETS)%nat -> 0 <= paddr < 2 ^ 64 ->
  (Z.to_nat MAX_RRPV < fuel)%nat ->
  exists w st',
    GetVictimInSet fuel cpu set cs PC paddr type st = Some (w, st')
    /\ forall s', s' <> set ->
         RRPV st' !!! s' = RRPV st !!! s'
         /\ valid_entries st' !!! s' = valid_entries st !!! s'
         /\ sig_mem st' !!! s' = sig_mem st !!! s'
         /\ has_hit st' !!! s' = has_hit st !!! s'
         /\ is_streaming st' !!! s' = is_streaming st !!! s'.
Proof.
  intros Hwf Hset Hpa Hfuel.
  destruct (GetVictimInSet_run fuel cpu set cs PC paddr type st Hwf Hset Hpa Hfuel)
    as (w & rr & _ & _ & _ & Hrun).
  exists w. eexists. split; [exact Hrun|].
  destruct Hwf as [_ [S1 _ _ _ _ _ _ _ _ _]].
  destruct (GetVictimInSet_lines _ _ _ _ _ _ _ _ _ _ S1 Hset Hrun)
    as (_ & _ & Hv & Hs & Hh & Hi & _ & Hr).
  intros s' Hne. rewrite Hv, Hs, Hh, Hi. unfold set2.
  rewrite !list_lookup_total_insert_ne by done.
  split; [by apply Hr | by repeat split].
Qed.

Lemma other_sets_untouched_witness :
  exists w st',
    GetVictimInSet (BLOCK := unit) 4 0 8 [] 0x7f3 0x3000 0 (full_state 0 3 false)
    = Some (w, st')
    /\ forall s', s' <> 8%nat ->
         RRPV st' !!! s' = RRPV (full_state 0 3 false) !!! s'
         /\ valid_entries st' !!! s' = valid_entries (full_state 0 3 false) !!! s'
         /\ sig_mem st' !!! s' = sig_mem (full_state 0 3 false) !!! s'
         /\ has_hit st' !!! s' = has_hit (full_state 0 3 false) !!! s'
         /\ is_streaming st' !!! s' = is_streaming (full_state 0 3 false) !!! s'.
Proof.
  refine (other_sets_untouched 4 0 8 [] 0x7f3 0x3000 0 (full_state 0 3 false) _ _ _ _).
  - apply full_state_wf; unfold MAX_RRPV, SIG_TABLE_SIZE; lia.
  - unfold LLC_SETS, NUM_CORE. lia.
  - lia.
  - vm_compute. lia.
Defined.

(** X10. The way a miss returns holds, afterwards, a valid line that has
    not been hit, tagged with the signature of the incoming program counter
    and marked streaming exactly when that signature's STCT entry meets the
    threshold; [stream_inserts] goes up by one in that case only. The other
    ways of the set keep their [valid], signature, hit and streaming
    fields. *)
Theorem installed_line {BLOCK} fuel cpu set (cs : list BLOCK) PC paddr type st :
  wf st -> (set < LLC_SETS)%nat -> 0 <= paddr < 2 ^ 64 ->
  (Z.to_nat MAX_RRPV < fuel)%nat ->
  let sig := GetSignature PC in
  exists w st',
    GetVictimInSet fuel cpu set cs PC paddr type st = Some (w, st')
    /\ get2 (valid_entries st') set w = true
    /\ get2 (has_hit st') set w = false
    /\ get2 (sig_mem st') set w = sig
    /\ get2 (is_streaming st') set w = (g_STCT_THRESHOLD st' <=? tget (STCT st') sig)
    /\ stream_inserts st'
       = (if get2 (is_streaming st') set w
          then wrap64 (stream_inserts st + 1) else stream_inserts st)
    /\ (forall w', w' <> w ->
          get2 (valid_entries st') set w' = get2 (valid_entries st) set w'
          /\ get2 (has_hit st') set w' = get2 (has_hit st) set w'
          /\ get2 (sig_mem st') set w' = get2 (sig_mem st) set w'
          /\ get2 (is_streaming st') set w' = get2 (is_streaming st) set w').
Proof.
  intros Hwf Hset Hpa Hfuel sig. subst sig.
  destruct (GetVictimInSet_run fuel cpu set cs PC paddr type st Hwf Hset Hpa Hfuel)
    as (w & rr & _ & _ & _ & Hrun).
  exists w. eexists. split; [exact Hrun|].
  destruct Hwf as [_ [S1 S2 S3 S4 S5 _ _ _ _ _]].
  destruct (GetVictimInSet_lines _ _ _ _ _ _ _ _ _ _ S1 Hset Hrun)
    as (Hw & _ & Hv & Hs & Hh & Hi & Hins & _).
  rewrite Hv, Hs, Hh, Hi, Hins.
  rewrite !get2_set2_eq by assumption.
  repeat split; by apply get2_set2_other; right.
Qed.

Lemma installed_line_witness :
  exists w st',
    GetVictimInSet (BLOCK := unit) 4 0 8 [] 0x7f3 0x3000 0 InitReplacementState
    = Some (w, st')
    /\ get2 (valid_entries st') 8 w = true
    /\ get2 (has_hit st') 8 w = false
    /\ get2 (sig_mem st') 8 w = GetSignature 0x7f3
    /\ get2 (is_streaming st') 8 w
       = (g_STCT_THRESHOLD st' <=? tget (STCT st') (GetSignature 0x7f3))
    /\ stream_inserts st'
       = (if get2 (is_streaming st') 8 w
          then wrap64 (stream_inserts InitReplacementState + 1)
          else stream_inserts InitReplacementState)
    /\ (forall w', w' <> w ->
          get2 (valid_entries st') 8 w' = get2 (valid_entries InitReplacementState) 8 w'
          /\ get2 (has_hit st') 8 w' = get2 (has_hit InitReplacementState) 8 w'
          /\ get2 (sig_mem st') 8 w' = get2 (sig_mem InitReplacementState) 8 w'
          /\ get2 (is_streaming st') 8 w' = get2 (is_streaming InitReplacementState) 8 w').
Proof.
  refine (installed_line 4 0 8 [] 0x7f3 0x3000 0 InitReplacementState _ _ _ _).
  - apply InitReplacementState_wf.
  - unfold LLC_SETS, NUM_CORE. lia.
  - lia.
  - vm_compute. lia.
Defined.

(** ** Occupancy *)

(** X11. In every reachable state the valid ways of each set are the ways
    below some index: the search fills a set from way [0] upwards. *)
Theorem valid_ways_form_prefix st :
  reachable st ->
  forall s w w', (s < LLC_SETS)%nat -> (w < LLC_WAYS)%nat -> (w' < w)%nat ->
    get2 (valid_entries st) s w = true -> get2 (valid_entries st) s w' = true.
Proof.
  induction 1 as [|st st' Hreach IH Hstep].
  - intros s w w' Hs Hw _ Hv. unfold InitReplacementState, get2 in Hv.
    cbn [valid_entries] in Hv.
    rewrite !lookup_total_replicate_2 in Hv by assumption. discriminate.
  - pose proof (reachable_wf st Hreach) as [_ [S1 S2 _ _ _ _ _ _ _ _]].
    destruct Hstep as [BLOCK fuel cpu set cs PC paddr type st way st' Hset _ _ Hrun
                      |cpu set way paddr PC victim_addr type hit st _ _ _].
    + destruct (GetVictimInSet_lines _ _ _ _ _ _ _ _ _ _ S1 Hset Hrun)
        as (Hway & Hlow & -> & _).
      intros s w w' Hs Hw Hlt. rewrite !get2_set2 by assumption.
      destruct (decide (set = s /\ way = w')) as [_|Hn']; [reflexivity|].
      destruct (decide (set = s /\ way = w)) as [[<- <-]|Hn].
      * intros _. by apply Hlow.
      * by apply IH.
    + destruct (UpdateReplacementState_lines cpu set way paddr PC victim_addr type hit st)
        as (_ & -> & _).
      replace (valid_entries (record_access set way hit st)) with (valid_entries st)
        by (unfold record_access; by destruct (hit =? 0)).
      exact IH.
Qed.

Lemma valid_ways_form_prefix_witness :
  get2 (valid_entries
          (after_miss 4 0x404 0x1040 (after_miss 4 0x400 0x1000 InitReplacementState)))
       4 0 = true.
Proof.
  refine (valid_ways_form_prefix _ _ 4 1 0 _ _ _ _).
  - eapply reachable_step; [eapply reachable_step; [apply reachable_init|]|].
    + eapply (step_victim unit 4 0 4 [] 0x400 0x1000 0 _ 0%nat);
        [unfold LLC_SETS, NUM_CORE; lia | lia | lia | vm_compute; reflexivity].
    + eapply (step_victim unit 4 0 4 [] 0x404 0x1040 0 _ 1%nat);
        [unfold LLC_SETS, NUM_CORE; lia | lia | lia | vm_compute; reflexivity].
  - unfold LLC_SETS, NUM_CORE. lia.
  - unfold LLC_WAYS. lia.
  - lia.
  - vm_compute. reflexivity.
Defined.

(** X12. No call ever clears a [valid] flag: a line, once installed, is
    only ever replaced, and a full set stays full. *)
Theorem valid_never_cleared st st' s w :
  shape2 (RRPV st) -> shape2 (valid_entries st) ->
  step st st' ->
  get2 (valid_entries st) s w = true -> get2 (valid_entries st') s w = true.
Proof.
  intros S1 S2 Hstep Hv.
  destruct Hstep as [BLOCK fuel cpu set cs PC paddr type st way st' Hset _ _ Hrun
                    |cpu set way paddr PC victim_addr type hit st _ _ _].
  - destruct (GetVictimInSet_lines _ _ _ _ _ _ _ _ _ _ S1 Hset Hrun)
      as (Hway & _ & -> & _).
    rewrite get2_set2 by assumption. by case_decide.
  - destruct (UpdateReplacementState_lines cpu set way paddr PC victim_addr type hit st)
      as (_ & -> & _).
    unfold record_access. by destruct (hit =? 0).
Qed.

Lemma valid_never_cleared_witness :
  get2 (valid_entries
          (UpdateReplacementState 0 0 0 0 0 0 0 1 (full_state 0 0 false))) 6 6 = true.
Proof.
  refine (valid_never_cleared (full_state 0 0 false) _ 6 6 _ _ _ _).
  - apply shape2_replicate.
  - apply shape2_replicate.
  - apply step_update; [unfold LLC_SETS, NUM_CORE | unfold LLC_WAYS |]; lia.
  - vm_compute. reflexivity.
Defined.

(** ** How the two entry points compose *)



(** X14. Hits reported again and again for one line walk the SHCT entry of
    its signature up by one each and stop at [SHCT_MAX], epoch boundaries in
    between or not: after [n] hits the entry is [min (c + n) SHCT_MAX], and
    no other entry has moved. *)
Theorem repeated_hits_saturate n cpu set way paddr PC victim_addr type hit st :
  wf st -> (set < LLC_SETS)%nat -> (way < LLC_WAYS)%nat -> hit <> 0 ->
  let sig := get2 (sig_mem st) set way in
  SHCT (Nat.iter n (UpdateReplacementState cpu set way paddr PC victim_addr type hit) st)
  = tset (SHCT st) sig (Z.min (tget (SHCT st) sig + Z.of_nat n) SHCT_MAX).
Proof.
  intros Hwf Hset Hway Hhit sig.
  destruct (stored_signature_range st set way Hwf Hset Hway) as [Hsig Hc].
  fold sig in Hsig, Hc.
  assert (Hlen : length (SHCT st) = Z.to_nat SIG_TABLE_SIZE) by apply Hwf.
  set (upd := UpdateReplacementState cpu set way paddr PC victim_addr type hit).
  assert (H : wf (Nat.iter n upd st)
              /\ sig_mem (Nat.iter n upd st) = sig_mem st
              /\ SHCT (Nat.iter n upd st)
                 = tset (SHCT st) sig (Z.min (tget (SHCT st) sig + Z.of_nat n) SHCT_MAX));
    [|apply H].
  induction n as [|n (IHwf & IHsig & IHshct)].
  - simpl. split; [exact Hwf|]. split; [reflexivity|].
    replace (Z.min _ SHCT_MAX) with (tget (SHCT st) sig) by lia.
    unfold tset, tget. symmetry. apply list_insert_id.
    apply list_lookup_lookup_total_lt. lia.
  - rewrite Nat.iter_succ. unfold upd at 1 3 5.
    split; [by apply UpdateReplacementState_wf|].
    destruct (UpdateReplacementState_lines cpu set way paddr PC victim_addr type hit
                (Nat.iter n upd st)) as (_ & _ & -> & _ & _ & -> & _).
    rewrite record_access_hit by exact Hhit. proj.
    split; [exact IHsig|]. rewrite IHsig. fold sig.
    rewrite shct_bump; [| apply IHwf | exact Hsig |].
    + rewrite IHshct. rewrite tget_tset_eq by assumption.
      unfold tset. rewrite list_insert_insert_eq. f_equal.
      unfold SHCT_MAX in *. lia.
    + rewrite IHshct, tget_tset_eq by assumption. unfold SHCT_MAX in *. lia.
Qed.

Lemma repeated_hits_saturate_witness :
  SHCT (Nat.iter 5 (UpdateReplacementState 0 1 2 0x80 0x400 0 0 1) (full_state 0 77 false))
  = tset (SHCT (full_state 0 77 false)) (get2 (sig_mem (full_state 0 77 false)) 1 2)
         (Z.min (tget (SHCT (full_state 0 77 false))
                      (get2 (sig_mem (full_state 0 77 false)) 1 2) + Z.of_nat 5)
                SHCT_MAX).
Proof.
  refine (repeated_hits_saturate 5 0 1 2 0x80 0x400 0 0 1 (full_state 0 77 false) _ _ _ _).
  - apply full_state_wf; unfold MAX_RRPV, SIG_TABLE_SIZE; lia.
  - unfold LLC_SETS, NUM_CORE. lia.
  - unfold LLC_WAYS. lia.
  - lia.
Defined.

(** ** The stream detector across calls *)

Lemma GetVictimInSet_detector {BLOCK} fuel cpu set (cs : list BLOCK) PC paddr type st w st' :
  GetVictimInSet fuel cpu set cs PC paddr type st = Some (w, st') ->
  STCT st' = tset (STCT st) (GetSignature PC)
               (stream_counter (tget (last_addr st) (GetSignature PC)) (Z.shiftr paddr 6)
                               (tget (STCT st) (GetSignature PC)))
  /\ last_addr st' = tset (last_addr st) (GetSignature PC) (Z.shiftr paddr 6).
Proof.
  unfold GetVictimInSet.
  destruct (FindVictimWay fuel set _) as [[way st2]|] eqn:E; [|discriminate].
  intros [= <- <-]. apply FindVictimWay_frame in E as [rr ->].
  unfold install. proj. autorewrite with evict. by split.
Qed.



Lemma sint64_small x : - 2 ^ 63 <= x < 2 ^ 63 -> sint64 x = x.
Proof.
  intros Hx. unfold sint64.
  assert (H64 : 2 ^ 64 = 2 * 2 ^ 63) by reflexivity.
  rewrite Z.mod_small by lia. lia.
Qed.

(** X16. Every stored [last_addr] of a reachable state is the sentinel or a
    block address below [2 ^ 58], so the signed subtraction of line 128 never
    leaves the range of [int64_t]: its result is the plain difference of the
    two block addresses. *)
Theorem stream_delta_never_overflows st PC paddr :
  reachable st -> 0 <= paddr < 2 ^ 64 ->
  let last := tget (last_addr st) (GetSignature PC) in
  let blk_addr := Z.shiftr paddr 6 in
  (last = INVALID_BLK \/ 0 <= last < 2 ^ 58)
  /\ (last <> INVALID_BLK ->
      - 2 ^ 63 <= sint64 blk_addr - sint64 last < 2 ^ 63
      /\ sint64 (sint64 blk_addr - sint64 last) = blk_addr - last).
Proof.
  intros Hreach Hpa last blk_addr.
  assert (Hinv : Forall (fun a => a = INVALID_BLK \/ 0 <= a < 2 ^ 58) (last_addr st)).
  { clear PC paddr Hpa last blk_addr.
    induction Hreach as [|st st' Hreach IH Hstep].
    - unfold InitReplacementState. proj. apply Forall_replicate. by left.
    - pose proof (reachable_wf st Hreach) as [_ [_ _ _ _ _ _ _ L3 _ _]].
      destruct Hstep as [BLOCK fuel cpu set cs PC paddr type st way st' _ _ Hpa Hrun
                        |cpu set way paddr PC victim_addr type hit st _ _ _].
      + destruct (GetVictimInSet_detector _ _ _ _ _ _ _ _ _ _ Hrun) as [_ ->].
        apply Forall_insert; [exact IH|]. right. by apply block_address_range.
      + unfold UpdateReplacementState.
        assert (Hl1 : last_addr (record_access set way hit st) = last_addr st).
        { unfold record_access. by destruct (hit =? 0). }
        destruct (EPOCH_LENGTH <=? _); [|by rewrite Hl1].
        unfold MonitorEpoch. proj. rewrite Hl1.
        destruct (phase_change _); [|exact IH].
        rewrite fill_table_replicate by exact L3.
        apply Forall_replicate. by left. }
  pose proof (reachable_wf st Hreach) as [_ [_ _ _ _ _ _ _ L3 _ _]].
  pose proof (tget_range _ _ _ Hinv L3 (GetSignature_range PC)) as Hlast.
  cbv beta in Hlast. fold last in Hlast.
  split; [exact Hlast|]. intros Hne.
  destruct Hlast as [|Hlast]; [contradiction|].
  pose proof (block_address_range paddr Hpa) as Hblk. fold blk_addr in Hblk.
  assert (H58 : 2 ^ 58 < 2 ^ 63) by reflexivity.
  rewrite (sint64_small blk_addr), (sint64_small last) by lia.
  split; [lia|]. apply sint64_small. lia.
Qed.

Lemma stream_delta_never_overflows_witness :
  tget (last_addr InitReplacementState) (GetSignature 0x400) = INVALID_BLK
  \/ 0 <= tget (last_addr InitReplacementState) (GetSignature 0x400) < 2 ^ 58.
Proof.
  refine (proj1 (stream_delta_never_overflows InitReplacementState 0x400 0x1000 _ _)).
  - apply reachable_init.
  - lia.
Defined.

(** X17. Every index the code computes stays inside its array in every
    reachable state: the five per-line arrays keep their
    [LLC_SETS x LLC_WAYS] shape, the three tables their [SIG_TABLE_SIZE]
    entries, and every signature stored with a line is a table index. *)
Theorem reachable_in_bounds st set way :
  reachable st -> (set < LLC_SETS)%nat -> (way < LLC_WAYS)%nat ->
  0 <= get2 (sig_mem st) set way < SIG_TABLE_SIZE
  /\ (Z.to_nat (get2 (sig_mem st) set way) < length (SHCT st))%nat
  /\ length (SHCT st) = Z.to_nat SIG_TABLE_SIZE
  /\ length (STCT st) = Z.to_nat SIG_TABLE_SIZE
  /\ length (last_addr st) = Z.to_nat SIG_TABLE_SIZE
  /\ shape2 (RRPV st) /\ shape2 (valid_entries st) /\ shape2 (sig_mem st)
  /\ shape2 (has_hit st) /\ shape2 (is_streaming st).
Proof.
  intros Hreach Hset Hway. pose proof (reachable_wf st Hreach) as Hwf.
  destruct (stored_signature_range st set way Hwf Hset Hway) as [Hsig _].
  destruct Hwf as [_ [S1 S2 S3 S4 S5 L1 L2 L3 _ _]].
  repeat split; try assumption; try apply Hsig; try (by destruct S1);
    try (by destruct S2); try (by destruct S3); try (by destruct S4);
    try (by destruct S5).
  rewrite L1. lia.
Qed.

Lemma reachable_in_bounds_witness :
  0 <= get2 (sig_mem (UpdateReplacementState 0 1 1 0 0 0 0 0 InitReplacementState)) 7 7
    < SIG_TABLE_SIZE.
Proof.
  refine (proj1 (reachable_in_bounds _ 7 7 _ _ _)).
  - eapply reachable_step; [apply reachable_init|].
    apply step_update; [unfold LLC_SETS, NUM_CORE | unfold LLC_WAYS |]; lia.
  - unfold LLC_SETS, NUM_CORE. lia.
  - unfold LLC_WAYS. lia.
Defined.

(** X18. A phase reset forgets the stream history: the first miss of any
    signature after it finds no previous address and leaves the entry at
    [STCT_INIT], whatever its address. *)
Theorem first_miss_after_reset {BLOCK} fuel cpu set (cs : list BLOCK) PC paddr type st :
  wf st -> (set < LLC_SETS)%nat -> 0 <= paddr < 2 ^ 64 ->
  (Z.to_nat MAX_RRPV < fuel)%nat ->
  phase_change st = true ->
  exists w st',
    GetVictimInSet fuel cpu set cs PC paddr type (MonitorEpoch st) = Some (w, st')
    /\ tget (STCT st') (GetSignature PC) = STCT_INIT
    /\ tget (last_addr st') (GetSignature PC) = Z.shiftr paddr 6.
Proof.
  intros Hwf Hset Hpa Hfuel Hph.
  pose proof (MonitorEpoch_wf st Hwf) as Hwf1.
  destruct (GetVictimInSet_run fuel cpu set cs PC paddr type _ Hwf1 Hset Hpa Hfuel)
    as (w & rr & _ & _ & _ & Hrun).
  exists w. eexists. split; [exact Hrun|].
  destruct (GetVictimInSet_detector _ _ _ _ _ _ _ _ _ _ Hrun) as [-> ->].
  pose proof (GetSignature_range PC) as Hsig.
  destruct Hwf1 as [_ [_ _ _ _ _ _ L2 L3 _ _]].
  rewrite !tget_tset_eq by assumption. split; [|reflexivity].
  destruct Hwf as [_ [_ _ _ _ _ _ L2' L3' _ _]].
  unfold MonitorEpoch. proj. rewrite Hph.
  rewrite !fill_table_replicate by assumption.
  rewrite !tget_replicate by exact Hsig.
  reflexivity.
Qed.

Lemma first_miss_after_reset_witness :
  exists w st',
    GetVictimInSet (BLOCK := unit) 4 0 5 [] 0x400 0x1000 0
      (MonitorEpoch (epoch_end 100000 46000 0 0
                       (ddiv (double_of_u64 40000) (double_of_u64 100000)) 2))
    = Some (w, st')
    /\ tget (STCT st') (GetSignature 0x400) = STCT_INIT
    /\ tget (last_addr st') (GetSignature 0x400) = Z.shiftr 0x1000 6.
Proof.
  refine (first_miss_after_reset 4 0 5 [] 0x400 0x1000 0
            (epoch_end 100000 46000 0 0
               (ddiv (double_of_u64 40000) (double_of_u64 100000)) 2) _ _ _ _ _).
  - pose proof InitReplacementState_wf as [[Hr Hh Ht _] Hshape]. destruct Hshape.
    split; constructor; unfold epoch_end; proj; try assumption.
    unfold STCT_MAX. lia.
  - unfold LLC_SETS, NUM_CORE. lia.
  - lia.
  - vm_compute. lia.
  - vm_compute. reflexivity.
Defined.

(** X19. The eviction penalty comes before the insertion decision. When the
    line a miss replaces was never hit and carries the very signature that
    is coming in, the new line's tier is chosen from the SHCT entry already
    lowered by one. *)
Theorem self_eviction_lowers_tier {BLOCK} fuel cpu set (cs : list BLOCK) PC paddr type st :
  wf st -> (set < LLC_SETS)%nat -> 0 <= paddr < 2 ^ 64 ->
  (Z.to_nat MAX_RRPV < fuel)%nat ->
  let sig := GetSignature PC in
  exists w st',
    GetVictimInSet fuel cpu set cs PC paddr type st = Some (w, st')
    /\ (get2 (valid_entries st) set w = true ->
        get2 (has_hit st) set w = false ->
        get2 (sig_mem st) set w = sig ->
        tget (SHCT st') sig = Z.max (tget (SHCT st) sig - 1) 0
        /\ get2 (RRPV st') set w
           = insertion_rrpv (Z.max (tget (SHCT st) sig - 1) 0)
                            (g_STCT_THRESHOLD st' <=? tget (STCT st') sig)).
Proof.
  intros Hwf Hset Hpa Hfuel sig. subst sig.
  destruct (GetVictimInSet_run fuel cpu set cs PC paddr type st Hwf Hset Hpa Hfuel)
    as (w & rr & Hw & Hwf2 & _ & Hrun).
  exists w. eexists. split; [exact Hrun|].
  intros Hval Hhit Hsame.
  pose proof (GetSignature_range PC) as Hsig.
  pose proof (evict_penalty_wf set w _ Hwf2 Hset Hw) as [_ [S1 _ _ _ _ _ _ _ _ _]].
  destruct Hwf as [[_ Hh _ _] [_ _ _ _ _ L1 _ _ _ _]].
  pose proof (tget_range _ _ _ Hh L1 Hsig) as Hc. cbv beta in Hc.
  assert (Hshct : SHCT (evict_penalty set w
                          (with_RRPV rr (stream_update (GetSignature PC) (Z.shiftr paddr 6) st)))
                  = tset (SHCT st) (GetSignature PC)
                         (Z.max (tget (SHCT st) (GetSignature PC) - 1) 0)).
  { unfold evict_penalty, with_RRPV, stream_update. proj.
    rewrite Hval. proj. rewrite Hhit, Hsame. simpl negb. rewrite andb_true_l.
    unfold SHCT_MAX in Hc.
    destruct (Z.ltb_spec 0 (tget (SHCT st) (GetSignature PC))).
    - rewrite wrap8_small by lia. f_equal. lia.
    - replace (Z.max _ 0) with (tget (SHCT st) (GetSignature PC)) by lia.
      unfold tset, tget. symmetry. apply list_insert_id.
      apply list_lookup_lookup_total_lt. lia. }
  unfold install at 1 2. proj.
  rewrite get2_set2_eq by assumption.
  rewrite Hshct, tget_tset_eq by assumption.
  split; reflexivity.
Qed.

Lemma self_eviction_lowers_tier_witness :
  exists w st',
    GetVictimInSet (BLOCK := unit) 4 0 2 [] 0x99 0x80 0 (full_state 0 (GetSignature 0x99) false)
    = Some (w, st')
    /\ (get2 (valid_entries (full_state 0 (GetSignature 0x99) false)) 2 w = true ->
        get2 (has_hit (full_state 0 (GetSignature 0x99) false)) 2 w = false ->
        get2 (sig_mem (full_state 0 (GetSignature 0x99) false)) 2 w = GetSignature 0x99 ->
        tget (SHCT st') (GetSignature 0x99)
        = Z.max (tget (SHCT (full_state 0 (GetSignature 0x99) false)) (GetSignature 0x99) - 1) 0
        /\ get2 (RRPV st') 2 w
           = insertion_rrpv
               (Z.max (tget (SHCT (full_state 0 (GetSignature 0x99) false))
                            (GetSignature 0x99) - 1) 0)
               (g_STCT_THRESHOLD st' <=? tget (STCT st') (GetSignature 0x99))).
Proof.
  refine (self_eviction_lowers_tier 4 0 2 [] 0x99 0x80 0
            (full_state 0 (GetSignature 0x99) false) _ _ _ _).
  - apply full_state_wf; [unfold MAX_RRPV; lia | apply GetSignature_range].
  - unfold LLC_SETS, NUM_CORE. lia.
  - lia.
  - vm_compute. lia.
Defined.
